(** * QuantJournal analytics: metrics engine, equity curve, rule violations

    A shallow embedding of [src/utils/analytics.ts] and of the type
    declarations it imports ([Trade], [Metrics], [EquityPoint],
    [TradeStatus], [UserProfile]).

    Modelling conventions.
    - A JavaScript [number] holding a currency amount or a ratio is a [num]:
      an exact rational, or one of the IEEE special values [Infinity],
      [-Infinity], [NaN], with the IEEE rules for the special values and for
      division by zero.  Rounding error and overflow of binary64 arithmetic
      are not modelled, and [-0] is identified with [0].  Where a property
      depends on how the arithmetic rounds, the two loops are also given
      over an arbitrary arithmetic ([Arith]) and the property is proved for
      every one of them.
    - Time stamps ([entryDate], [exitDate], [Date.now()]) are integral epoch
      milliseconds, [Z]; an optional field is an [option].
    - Counters ([wins], [totalTrades], [currentStreak]) are [Z].
    - [Array.prototype.sort] is the stable sort ECMAScript 2019 requires.
    - Arrays live in a store ([World]); [filter] allocates, [sort] writes in
      place.  The pure functions describe the values computed, the store
      level programs describe the effects, and the two are related. *)

From Stdlib Require Import ZArith QArith Qcanon Qround Lia.
From Stdlib Require Import List Permutation Sorted.
From stdpp Require Import base option list sorting gmap strings pretty.

Local Open Scope Z_scope.

(** ** Numbers *)

Module Num.

Inductive num : Type :=
| Fin (q : Qc)
| PInf
| NInf
| NaN.

Definition ofZ (z : Z) : num := Fin (Qc_of_Z z).

Definition zero : num := ofZ 0.

(** The sign of a rational, as a [comparison] with zero. *)
Definition sgn (q : Qc) : comparison := (q ?= 0)%Qc.

Definition neg (a : num) : num :=
  match a with
  | Fin q => Fin (- q)%Qc
  | PInf => NInf
  | NInf => PInf
  | NaN => NaN
  end.

Definition add (a b : num) : num :=
  match a, b with
  | NaN, _ | _, NaN => NaN
  | PInf, NInf | NInf, PInf => NaN
  | PInf, _ | _, PInf => PInf
  | NInf, _ | _, NInf => NInf
  | Fin x, Fin y => Fin (x + y)%Qc
  end.

Definition sub (a b : num) : num := add a (neg b).

(** An infinity of the sign given by a comparison with zero; [NaN] at zero. *)
Definition inf_of (c : comparison) : num :=
  match c with
  | Gt => PInf
  | Lt => NInf
  | Eq => NaN
  end.

Definition mul (a b : num) : num :=
  match a, b with
  | NaN, _ | _, NaN => NaN
  | Fin x, Fin y => Fin (x * y)%Qc
  | PInf, Fin y | Fin y, PInf => inf_of (sgn y)
  | NInf, Fin y | Fin y, NInf => inf_of (CompOpp (sgn y))
  | PInf, PInf | NInf, NInf => PInf
  | PInf, NInf | NInf, PInf => NInf
  end.

(** IEEE division: a nonzero finite number over zero is an infinity, zero
    over zero and infinity over infinity are [NaN]. *)
Definition div (a b : num) : num :=
  match a, b with
  | NaN, _ | _, NaN => NaN
  | Fin x, Fin y =>
      match sgn y with
      | Eq => inf_of (sgn x)
      | _ => Fin (x / y)%Qc
      end
  | Fin _, PInf | Fin _, NInf => zero
  | PInf, Fin y => match sgn y with Lt => NInf | _ => PInf end
  | NInf, Fin y => match sgn y with Lt => PInf | _ => NInf end
  | _, _ => NaN
  end.

(** [a < b]; false as soon as one side is [NaN]. *)
Definition ltb (a b : num) : bool :=
  match a, b with
  | NaN, _ | _, NaN => false
  | Fin x, Fin y => match (x ?= y)%Qc with Lt => true | _ => false end
  | NInf, NInf => false
  | NInf, _ => true
  | _, PInf => match a with PInf => false | _ => true end
  | _, _ => false
  end.

Definition gtb (a b : num) : bool := ltb b a.

(** [Math.abs] *)
Definition abs (a : num) : num :=
  match a with
  | Fin q => match sgn q with Lt => Fin (- q)%Qc | _ => Fin q end
  | PInf | NInf => PInf
  | NaN => NaN
  end.

(** [Math.max] of two numbers: [NaN] if either is. *)
Definition max (a b : num) : num :=
  match a, b with
  | NaN, _ | _, NaN => NaN
  | _, _ => if ltb a b then b else a
  end.

Definition isFinite (a : num) : bool :=
  match a with Fin _ => true | _ => false end.

(** Rounding of a non-negative rational to the nearest integer, ties up. *)
Definition round_half_up (q : Qc) : Z := Qfloor (q + Q2Qc (1 # 2))%Qc.

(** The nearest multiple of 1/100, ties away from zero: what
    [x.toFixed(2)] prints for a finite [x]. *)
Definition round2 (q : Qc) : Qc :=
  match sgn q with
  | Lt => (- (Qc_of_Z (round_half_up (- q * Qc_of_Z 100)) / Qc_of_Z 100))%Qc
  | _ => (Qc_of_Z (round_half_up (q * Qc_of_Z 100)) / Qc_of_Z 100)%Qc
  end.

(** [Number(x.toFixed(2))]; the special values print and parse back as
    themselves. *)
Definition toFixed2 (a : num) : num :=
  match a with
  | Fin q => Fin (round2 q)
  | _ => a
  end.

(** [Math.max(...l)] *)
Definition maxList (l : list num) : num := fold_left max l NInf.

End Num.

Import Num.

(** ** Data model (types.ts) *)

Inductive TradeStatus : Type := OPEN | CLOSED | PENDING.

Inductive Session : Type := ASIA | LONDON | NY | OVERLAP.

(** The fields of [Trade] that analytics.ts reads.  The remaining fields of
    the interface (symbol, prices, notes, ...) are never touched by it. *)
Record Trade : Type := mkTrade {
  id : string;
  entryDate : Z;
  exitDate : option Z;
  netPnL : num;
  riskAmount : num;
  session : Session;
  status : TradeStatus
}.

Record UserProfile : Type := mkProfile {
  startBalance : num;
  maxRiskPerTrade : num
}.

Record Metrics : Type := mkMetrics {
  totalTrades : Z;
  winRate : num;
  profitFactor : num;
  expectancy : num;
  averageWin : num;
  averageLoss : num;
  maxDrawdown : num;
  maxDrawdownPercent : num;
  netProfit : num;
  largestWin : num;
  largestLoss : num;
  currentStreak : Z
}.

Record EquityPoint : Type := mkPoint {
  date : string;
  timestamp : Z;
  equity : num;
  drawdown : num
}.

(** What the functions take from the host: the locale dependent date label
    and the number printers used inside the message of the first check. *)
Record Host : Type := mkHost {
  toLocaleDateString : Z -> string;
  numberToString : num -> string;
  numberToFixed0 : num -> string
}.

(** ** Array helpers *)

Section StableSort.
Context {A : Type} (cmp : A -> A -> Z).

(** Insertion before the first element that does not compare below [x]:
    equal elements keep their relative order. *)
Fixpoint insertSorted (x : A) (l : list A) : list A :=
  match l with
  | [] => [x]
  | y :: l' => if cmp x y <=? 0 then x :: y :: l' else y :: insertSorted x l'
  end.

(** The array contents [Array.prototype.sort] leaves behind. *)
Definition sortBy (l : list A) : list A := fold_right insertSorted [] l.

End StableSort.

(** Comparators by an integer key, ascending and descending. *)
Definition ascBy {A : Type} (key : A -> Z) (a b : A) : Z := key a - key b.

Definition descBy {A : Type} (key : A -> Z) (a b : A) : Z := key b - key a.

(** Order of two elements by their keys. *)
Definition keyLe {A : Type} (key : A -> Z) (a b : A) : Prop := key a <= key b.

Definition keyLt {A : Type} (key : A -> Z) (a b : A) : Prop := key a < key b.

Definition isClosed (t : Trade) : bool :=
  match status t with CLOSED => true | _ => false end.

(** [t.exitDate || 0] *)
Definition exitOr0 (t : Trade) : Z :=
  match exitDate t with Some e => e | None => 0 end.

(** [(a, b) => (a.exitDate || 0) - (b.exitDate || 0)] *)
Definition byExitAsc (a b : Trade) : Z := exitOr0 a - exitOr0 b.

(** [(a, b) => (b.exitDate || 0) - (a.exitDate || 0)] *)
Definition byExitDesc (a b : Trade) : Z := exitOr0 b - exitOr0 a.

(** [trades.filter(t => t.status === CLOSED).sort(byExitAsc)] *)
Definition closedSorted (trades : list Trade) : list Trade :=
  sortBy byExitAsc (List.filter isClosed trades).

(** ** calculateMetrics *)

(** The local variables the [forEach] callback updates. *)
Record MetricsAcc : Type := mkAcc {
  wins : Z;
  grossProfit : num;
  grossLoss : num;
  maxEquity : num;
  currentEquity : num;
  maxDD : num;
  maxDDPercent : num;
  accLargestWin : num;
  accLargestLoss : num;
  accStreak : Z
}.

Definition metricsInit (initialBalance : num) : MetricsAcc :=
  {| wins := 0; grossProfit := zero; grossLoss := zero;
     maxEquity := initialBalance; currentEquity := initialBalance;
     maxDD := zero; maxDDPercent := zero;
     accLargestWin := zero; accLargestLoss := zero; accStreak := 0 |}.

Definition metricsStep (s : MetricsAcc) (trade : Trade) : MetricsAcc :=
  let pnl := netPnL trade in
  let cur := add (currentEquity s) pnl in
  let peak := if gtb cur (maxEquity s) then cur else maxEquity s in
  let dd := sub peak cur in
  let ddPercent := mul (div dd peak) (ofZ 100) in
  let maxDD' := if gtb dd (maxDD s) then dd else maxDD s in
  let maxDDPercent' :=
    if gtb ddPercent (maxDDPercent s) then ddPercent else maxDDPercent s in
  if gtb pnl zero then
    {| wins := wins s + 1;
       grossProfit := add (grossProfit s) pnl;
       grossLoss := grossLoss s;
       maxEquity := peak; currentEquity := cur;
       maxDD := maxDD'; maxDDPercent := maxDDPercent';
       accLargestWin :=
         if gtb pnl (accLargestWin s) then pnl else accLargestWin s;
       accLargestLoss := accLargestLoss s;
       accStreak := if 0 <=? accStreak s then accStreak s + 1 else 1 |}
  else
    {| wins := wins s;
       grossProfit := grossProfit s;
       grossLoss := add (grossLoss s) (abs pnl);
       maxEquity := peak; currentEquity := cur;
       maxDD := maxDD'; maxDDPercent := maxDDPercent';
       accLargestWin := accLargestWin s;
       accLargestLoss :=
         if ltb pnl (accLargestLoss s) then pnl else accLargestLoss s;
       accStreak := if accStreak s <=? 0 then accStreak s - 1 else -1 |}.

(** The statements after the loop. *)
Definition metricsFinish (initialBalance : num) (n : Z) (s : MetricsAcc)
  : Metrics :=
  let losses := n - wins s in
  let winRate := if 0 <? n then mul (div (ofZ (wins s)) (ofZ n)) (ofZ 100)
                 else zero in
  let profitFactor :=
    if gtb (grossLoss s) zero then div (grossProfit s) (grossLoss s)
    else if gtb (grossProfit s) zero then ofZ 999 else zero in
  let averageWin :=
    if 0 <? wins s then div (grossProfit s) (ofZ (wins s)) else zero in
  let averageLoss :=
    if 0 <? losses then div (grossLoss s) (ofZ losses) else zero in
  let winPct := div (ofZ (wins s)) (ofZ n) in
  let lossPct := div (ofZ losses) (ofZ n) in
  {| totalTrades := n;
     winRate := winRate;
     profitFactor := profitFactor;
     expectancy :=
       if 0 <? n then sub (mul winPct averageWin) (mul lossPct averageLoss)
       else zero;
     averageWin := averageWin;
     averageLoss := averageLoss;
     maxDrawdown := maxDD s;
     maxDrawdownPercent := maxDDPercent s;
     netProfit := sub (currentEquity s) initialBalance;
     largestWin := accLargestWin s;
     largestLoss := accLargestLoss s;
     currentStreak := accStreak s |}.

(** The loop and the epilogue over an already filtered and sorted array. *)
Definition metricsOf (closedTrades : list Trade) (initialBalance : num)
  : Metrics :=
  metricsFinish initialBalance (Z.of_nat (length closedTrades))
    (fold_left metricsStep closedTrades (metricsInit initialBalance)).

Definition calculateMetrics (trades : list Trade) (initialBalance : num)
  : Metrics :=
  metricsOf (closedSorted trades) initialBalance.

(** The call with the second argument omitted. *)
Definition calculateMetricsDefault (trades : list Trade) : Metrics :=
  calculateMetrics trades (ofZ 100000).

(** ** generateEquityCurve *)

Record CurveAcc : Type := mkCurveAcc {
  currentBalance : num;
  maxBalance : num;
  curve : list EquityPoint
}.

Definition curveStep (h : Host) (s : CurveAcc) (trade : Trade) : CurveAcc :=
  let cur := add (currentBalance s) (netPnL trade) in
  let peak := if gtb cur (maxBalance s) then cur else maxBalance s in
  let ddPercent :=
    if gtb peak zero then mul (div (sub peak cur) peak) (ofZ 100)
    else zero in
  {| currentBalance := cur;
     maxBalance := peak;
     curve := curve s ++
       [ {| date := toLocaleDateString h (exitOr0 trade);
            timestamp := exitOr0 trade;
            equity := toFixed2 cur;
            drawdown := toFixed2 ddPercent |} ] |}.

(** [now] is the value [Date.now()] returns during the call. *)
Definition curveOf (h : Host) (now : Z) (sortedTrades : list Trade)
    (initialBalance : num) : list EquityPoint :=
  let start :=
    {| date := "Start";
       timestamp := match sortedTrades with
                    | t :: _ => entryDate t - 86400000
                    | [] => now
                    end;
       equity := initialBalance;
       drawdown := zero |} in
  curve (fold_left (curveStep h) sortedTrades
           {| currentBalance := initialBalance;
              maxBalance := initialBalance;
              curve := [start] |}).

Definition generateEquityCurve (h : Host) (now : Z) (trades : list Trade)
    (initialBalance : num) : list EquityPoint :=
  curveOf h now (closedSorted trades) initialBalance.

(** ** getTradeViolations *)

(** [new Date(ms).getUTCHours()]: the hour of the day, or [NaN] (here
    [None]) outside the range of valid dates. *)
Definition getUTCHours (ms : Z) : option Z :=
  if (Z.abs ms <=? 8640000000000000)
  then Some ((ms `div` 3600000) `mod` 24)
  else None.

(** Comparisons of an hour that may be [NaN]. *)
Definition hourLt (h : option Z) (k : Z) : bool :=
  match h with Some x => x <? k | None => false end.

Definition hourGe (h : option Z) (k : Z) : bool :=
  match h with Some x => k <=? x | None => false end.

Definition REVENGE_WINDOW_MS : Z := 30 * 60 * 1000.

Definition revengeMessage : string :=
  "Potential revenge trading (entry <30m after loss)".

(** [t.exitDate && t.exitDate <= trade.entryDate]: a missing, or zero,
    exit date is falsy. *)
Definition exitTruthyUpTo (t : Trade) (bound : Z) : bool :=
  match exitDate t with
  | Some e => negb (e =? 0) && (e <=? bound)
  | None => false
  end.

(** The predicate of the [filter] in the revenge check. *)
Definition isPrevious (trade t : Trade) : bool :=
  negb (String.eqb (id t) (id trade)) && exitTruthyUpTo t (entryDate trade).

Definition previousTrades (trade : Trade) (allTrades : list Trade)
  : list Trade :=
  sortBy byExitDesc (List.filter (isPrevious trade) allTrades).

(** The body of [if (previousTrades.length > 0)], on the sorted array. *)
Definition revengeCheck (trade : Trade) (previous : list Trade)
  : list string :=
  match previous with
  | [] => []
  | lastTrade :: _ =>
      match exitDate lastTrade with
      | Some e =>
          if ltb (netPnL lastTrade) zero && negb (e =? 0)
             && (entryDate trade - e <? REVENGE_WINDOW_MS)
          then [revengeMessage] else []
      | None => []
      end
  end.

Definition riskChecks (h : Host) (trade : Trade) (profile : option UserProfile)
  : list string :=
  let MAX_RISK_AMOUNT :=
    match profile with
    | Some p => div (mul (startBalance p) (maxRiskPerTrade p)) (ofZ 100)
    | None => ofZ 2000
    end in
  let MAX_LOSS_MULTIPLIER := Fin (Q2Qc (3 # 2)) in
  (if gtb (riskAmount trade) MAX_RISK_AMOUNT
   then ["Risk ($" +:+ numberToString h (riskAmount trade)
           +:+ ") exceeds max limit ($" +:+ numberToFixed0 h MAX_RISK_AMOUNT
           +:+ ")"]
   else [])
  ++
  (if ltb (netPnL trade) zero
      && gtb (abs (netPnL trade)) (mul (riskAmount trade) MAX_LOSS_MULTIPLIER)
      && gtb (riskAmount trade) zero
   then ["Loss exceeded planned risk significantly (Slippage/Discipline)"]
   else []).

Definition sessionChecks (trade : Trade) : list string :=
  let entryHour := getUTCHours (entryDate trade) in
  match session trade with
  | LONDON =>
      if hourLt entryHour 7 || hourGe entryHour 17
      then ["Trade executed outside London session"] else []
  | NY =>
      if hourLt entryHour 12 || hourGe entryHour 22
      then ["Trade executed outside NY session"] else []
  | ASIA =>
      let isAsiaTime := hourGe entryHour 22 || hourLt entryHour 9 in
      if negb isAsiaTime
      then ["Trade executed outside Asia session"] else []
  | OVERLAP => []
  end.

Definition getTradeViolations (h : Host) (trade : Trade)
    (allTrades : list Trade) (profile : option UserProfile) : list string :=
  riskChecks h trade profile
  ++ sessionChecks trade
  ++ revengeCheck trade (previousTrades trade allTrades).

(** ** The store: arrays by reference, and the clock

    An array is held in the store under its reference and carries its trade
    records by value: analytics.ts never assigns to a field of a trade, so
    the sharing of records between an array and its filtered copy cannot be
    observed. *)

Record World : Type := mkWorld {
  arrays : gmap nat (list Trade);
  clock : Z
}.

(** A computation reads and updates the world, or throws ([None]) when it
    dereferences something that is not an array. *)
Definition JS (A : Type) : Type := World -> option (A * World).

Definition ret {A : Type} (a : A) : JS A := fun w => Some (a, w).

Definition bind {A B : Type} (m : JS A) (k : A -> JS B) : JS B :=
  fun w => match m w with
           | Some (a, w') => k a w'
           | None => None
           end.

Declare Scope js_scope.
Delimit Scope js_scope with js.
Notation "'let*' x ':=' m 'in' k" := (bind m (fun x => k))
  (at level 10, x name, m at level 100, k at level 200) : js_scope.

Definition readArray (a : nat) : JS (list Trade) :=
  fun w => match arrays w !! a with
           | Some l => Some (l, w)
           | None => None
           end.

(** [arr.filter(p)]: a new array; [arr] itself is only read. *)
Definition Array_filter (p : Trade -> bool) (a : nat) : JS nat :=
  fun w => match arrays w !! a with
           | Some l =>
               let a' := fresh (dom (arrays w)) in
               Some (a', {| arrays := <[a' := List.filter p l]> (arrays w);
                            clock := clock w |})
           | None => None
           end.

(** [arr.sort(cmp)]: sorts [arr] in place and returns the same reference. *)
Definition Array_sort (cmp : Trade -> Trade -> Z) (a : nat) : JS nat :=
  fun w => match arrays w !! a with
           | Some l =>
               Some (a, {| arrays := <[a := sortBy cmp l]> (arrays w);
                           clock := clock w |})
           | None => None
           end.

(** [Date.now()] *)
Definition Date_now : JS Z := fun w => Some (clock w, w).

Local Open Scope js_scope.

Definition calculateMetricsJS (trades : nat) (initialBalance : num)
  : JS Metrics :=
  let* filtered := Array_filter isClosed trades in
  let* closedTrades := Array_sort byExitAsc filtered in
  let* l := readArray closedTrades in
  ret (metricsOf l initialBalance).

Definition generateEquityCurveJS (h : Host) (trades : nat)
    (initialBalance : num) : JS (list EquityPoint) :=
  let* filtered := Array_filter isClosed trades in
  let* sortedTrades := Array_sort byExitAsc filtered in
  let* l := readArray sortedTrades in
  let* now := match l with
              | [] => Date_now
              | _ :: _ => ret 0
              end in
  ret (curveOf h now l initialBalance).

Definition getTradeViolationsJS (h : Host) (trade : Trade) (allTrades : nat)
    (profile : option UserProfile) : JS (list string) :=
  let* filtered := Array_filter (isPrevious trade) allTrades in
  let* previous := Array_sort byExitDesc filtered in
  let* l := readArray previous in
  ret (riskChecks h trade profile ++ sessionChecks trade
         ++ revengeCheck trade l).

Local Close Scope js_scope.

(** ** Sample inputs *)

(** A host whose date label is the day number since the epoch and whose
    number printers show an integer in decimal and anything else as a
    fraction.  Used only to run the functions on concrete inputs. *)
Definition showNum (a : num) : string :=
  match a with
  | Fin q =>
      if (Zpos (Qden q) =? 1) then pretty (Qnum q)
      else pretty (Qnum q) +:+ "/" +:+ pretty (Zpos (Qden q))
  | PInf => "Infinity"
  | NInf => "-Infinity"
  | NaN => "NaN"
  end.

Definition sampleHost : Host :=
  {| toLocaleDateString := fun ms => pretty (ms `div` 86400000);
     numberToString := showNum;
     numberToFixed0 := showNum |}.

(** A CLOSED trade with the given id, entry, exit and net PnL. *)
Definition closedTrade (i : string) (entry : Z) (exit : option Z) (pnl : Z)
  : Trade :=
  {| id := i; entryDate := entry; exitDate := exit; netPnL := ofZ pnl;
     riskAmount := zero; session := OVERLAP; status := CLOSED |}.

(** ** Vocabulary of the properties *)

(** The same trade with a missing exit date written out as 0. *)
Definition exitDefaulted (t : Trade) : Trade :=
  {| id := id t; entryDate := entryDate t; exitDate := Some (exitOr0 t);
     netPnL := netPnL t; riskAmount := riskAmount t; session := session t;
     status := status t |}.

(** A trade "with status CLOSED and a defined exitDate", as the
    specification words the selection. *)
Definition isClosedWithExit (t : Trade) : bool :=
  isClosed t && bool_decide (is_Some (exitDate t)).

(** Every array of [w] is still there, with the same contents, in [w'], and
    the clock has not been touched. *)
Definition preserved (w w' : World) : Prop :=
  (forall b : nat, is_Some (arrays w !! b) -> arrays w' !! b = arrays w !! b)
  /\ clock w' = clock w.

(** A world with one array, at reference 0. *)
Definition worldOf (l : list Trade) (now : Z) : World :=
  {| arrays := {[ 0%nat := l ]}; clock := now |}.

(** The value a computation returns, if it returns. *)
Definition valueOf {A : Type} (r : option (A * World)) : option A :=
  match r with Some (v, _) => Some v | None => None end.

(** The time stamp of the Start point. *)
Definition startTimestamp (now : Z) (sortedTrades : list Trade) : Z :=
  match sortedTrades with
  | t :: _ => entryDate t - 86400000
  | [] => now
  end.

(** Cents to units, for a whole number of cents. *)
Definition ofCents (z : Z) : Qc := (Qc_of_Z z / Qc_of_Z 100)%Qc.

(** The running peak after adding [pnl] to the balance. *)
Definition nextPeak (cur peak : num) : num :=
  if gtb cur peak then cur else peak.

(** The drawdown percentage as calculateMetrics computes it, unguarded. *)
Definition ddPercentOf (cur peak : num) : num :=
  mul (div (sub peak cur) peak) (ofZ 100).

(** The fraction a finite number stands for, in lowest terms. *)
Definition toQ (a : num) : option Q :=
  match a with Fin q => Some (this q) | _ => None end.

(** The example of the specification: net PnL +1000, -2000, +500. *)
Definition threeTrades : list Trade :=
  [closedTrade "a" 0 (Some 1000) 1000;
   closedTrade "b" 0 (Some 2000) (-2000);
   closedTrade "c" 0 (Some 3000) 500].

(** "A trade other than T whose exitDate is defined and at or before T's
    entryDate", in the words of the specification. *)
Definition precedesAsSpecified (trade t : Trade) : Prop :=
  id t <> id trade /\ exists e, exitDate t = Some e /\ e <= entryDate trade.

(** The condition as specified: among those trades, one with the latest
    exit date is a loss closed less than 30 minutes before the entry. *)
Definition revengeAsSpecified (trade : Trade) (allTrades : list Trade) : Prop :=
  exists p e, p ∈ allTrades /\ precedesAsSpecified trade p
    /\ exitDate p = Some e
    /\ (forall q e', q ∈ allTrades -> precedesAsSpecified trade q ->
                     exitDate q = Some e' -> e' <= e)
    /\ ltb (netPnL p) zero = true
    /\ entryDate trade - e < REVENGE_WINDOW_MS.

(** What the filter of the code keeps: another trade whose exit date is
    defined, not 0, and at or before the entry of [trade]. *)
Definition precedes (trade t : Trade) : Prop :=
  id t <> id trade
  /\ exists e, exitDate t = Some e /\ e <> 0 /\ e <= entryDate trade.

(** The condition the code tests: the preceding trade with the latest exit
    date, the earliest in array order when several share it, is a loss
    closed less than 30 minutes before the entry. *)
Definition revengeTriggered (trade : Trade) (allTrades : list Trade) : Prop :=
  exists l1 p l2 e, allTrades = l1 ++ p :: l2
    /\ precedes trade p /\ exitDate p = Some e
    /\ (forall q, q ∈ l1 -> precedes trade q -> exitOr0 q < e)
    /\ (forall q, q ∈ l2 -> precedes trade q -> exitOr0 q <= e)
    /\ ltb (netPnL p) zero = true
    /\ entryDate trade - e < REVENGE_WINDOW_MS.

(** The same trade with another status. *)
Definition withStatus (f : Trade -> TradeStatus) (t : Trade) : Trade :=
  {| id := id t; entryDate := entryDate t; exitDate := exitDate t;
     netPnL := netPnL t; riskAmount := riskAmount t; session := session t;
     status := f t |}.

(** An OPEN loss with an exit date, a CLOSED loss, and a PENDING win with a
    later exit date; the examined trade is entered ten minutes after the
    first two have exited. *)
Definition openLoss : Trade :=
  {| id := "o"; entryDate := 0; exitDate := Some 1000; netPnL := ofZ (-100);
     riskAmount := zero; session := OVERLAP; status := OPEN |}.

Definition pendingWin : Trade :=
  {| id := "p"; entryDate := 0; exitDate := Some 2000; netPnL := ofZ 50;
     riskAmount := zero; session := OVERLAP; status := PENDING |}.

Definition examined : Trade := closedTrade "t" 601000 None 5.

(** ** Callers in Dashboard.tsx *)

(** [(a, b) => b.entryDate - a.entryDate] *)
Definition byEntryDesc (a b : Trade) : Z := entryDate b - entryDate a.

(** [[...trades].sort(byEntryDesc).slice(0, 5)], the "Recent Activity"
    table. *)
Definition recentTrades (trades : list Trade) : list Trade :=
  take 5 (sortBy byEntryDesc trades).

(** [arr.slice(-n)]: the last [n] elements, all of them when there are
    fewer. *)
Definition sliceLast {A : Type} (n : nat) (l : list A) : list A :=
  drop (length l - n) l.

(** [calculateMetrics(trades.slice(-20), startBalance).winRate], the
    "Win Rate (Last 20)" tile. *)
Definition lastTwentyWinRate (trades : list Trade) (startBalance : num)
  : num :=
  winRate (calculateMetrics (sliceLast 20 trades) startBalance).

(** [x || 0] on a number: 0 and [NaN] are falsy. *)
Definition orZero (a : num) : num :=
  match a with
  | NaN => zero
  | Fin q => match sgn q with Eq => zero | _ => Fin q end
  | _ => a
  end.

(** [metrics.expectancy / metrics.averageLoss || 0], the "Average R"
    tile. *)
Definition averageR (m : Metrics) : num :=
  orZero (div (expectancy m) (averageLoss m)).

(** [[...arr]]: a new array with the same elements. *)
Definition Array_spread (a : nat) : JS nat :=
  fun w => match arrays w !! a with
           | Some l =>
               let a' := fresh (dom (arrays w)) in
               Some (a', {| arrays := <[a' := l]> (arrays w);
                            clock := clock w |})
           | None => None
           end.

(** [arr.slice(0, n)]: a new array with the first [n] elements. *)
Definition Array_slice_to (n : nat) (a : nat) : JS nat :=
  fun w => match arrays w !! a with
           | Some l =>
               let a' := fresh (dom (arrays w)) in
               Some (a', {| arrays := <[a' := take n l]> (arrays w);
                            clock := clock w |})
           | None => None
           end.

(** The body of the [recentTrades] memo, returning the reference of the
    array it builds. *)
Definition recentTradesJS (trades : nat) : JS nat :=
  bind (Array_spread trades)
    (fun copy => bind (Array_sort byEntryDesc copy)
       (fun sorted => Array_slice_to 5 sorted)).

(** ** Vocabulary of the further properties *)

(** The outcome the loop of calculateMetrics assigns to a trade:
    [pnl > 0]. *)
Definition isWin (t : Trade) : bool := gtb (netPnL t) zero.

(** [pnl < 0] *)
Definition isNegative (t : Trade) : bool := ltb (netPnL t) zero.

(** The number of elements equal to [b] at the front of a list. *)
Fixpoint leadingRun (b : bool) (l : list bool) : nat :=
  match l with
  | x :: l' => if Bool.eqb x b then S (leadingRun b l') else 0%nat
  | [] => 0%nat
  end.

(** The run of equal outcomes at the end of a chronological list of
    outcomes, counted positive for wins and negative for losses. *)
Definition signedStreak (outcomes : list bool) : Z :=
  match rev outcomes with
  | [] => 0
  | true :: r => Z.of_nat (S (leadingRun true r))
  | false :: r => - Z.of_nat (S (leadingRun false r))
  end.

(** The balances after each trade, starting from [cur]. *)
Fixpoint balancesFrom (cur : num) (pnls : list num) : list num :=
  match pnls with
  | [] => []
  | p :: r => add cur p :: balancesFrom (add cur p) r
  end.

(** The rational a finite number stands for, 0 for the special values. *)
Definition valQ (a : num) : Qc :=
  match a with Fin q => q | _ => 0%Qc end.

(** The sum of a list of rationals. *)
Definition sumQ (l : list Qc) : Qc := fold_right Qcplus 0%Qc l.

(** Milliseconds since the preceding UTC midnight. *)
Definition msOfDay (ms : Z) : Z := ms `mod` 86400000.

Definition validDate (ms : Z) : Prop := Z.abs ms <= 8640000000000000.

(** The win rate as a function of the two counts. *)
Definition winRateOf (w n : nat) : num :=
  match n with
  | O => zero
  | S _ => Fin (Qc_of_Z (Z.of_nat w) / Qc_of_Z (Z.of_nat n) * Qc_of_Z 100)
  end.

(** The net PnL of a trade as a rational. *)
Definition pnlQ (t : Trade) : Qc := valQ (netPnL t).

Definition finitePnL (t : Trade) : Prop := isFinite (netPnL t) = true.

Definition isLoss (t : Trade) : bool := negb (isWin t).

(** ** The two loops over an arbitrary arithmetic

    The same code with [+], [-], [*], [/] and [Number(x.toFixed(2))] left
    open: any functions on [num] may stand for them, the exact ones above
    as well as the correctly rounded, overflowing ones of binary64.  The
    comparisons [>] and [<], [Math.abs] and the integer counters are exact
    in either reading and stay as they are. *)

Record Arith : Type := mkArith {
  aadd : num -> num -> num;
  asub : num -> num -> num;
  amul : num -> num -> num;
  adiv : num -> num -> num;
  afixed2 : num -> num
}.

(** The arithmetic of the embedding above. *)
Definition exactArith : Arith :=
  {| aadd := add; asub := sub; amul := mul; adiv := div;
     afixed2 := toFixed2 |}.

Definition metricsStepG (a : Arith) (s : MetricsAcc) (trade : Trade)
  : MetricsAcc :=
  let pnl := netPnL trade in
  let cur := aadd a (currentEquity s) pnl in
  let peak := if gtb cur (maxEquity s) then cur else maxEquity s in
  let dd := asub a peak cur in
  let ddPercent := amul a (adiv a dd peak) (ofZ 100) in
  let maxDD' := if gtb dd (maxDD s) then dd else maxDD s in
  let maxDDPercent' :=
    if gtb ddPercent (maxDDPercent s) then ddPercent else maxDDPercent s in
  if gtb pnl zero then
    {| wins := wins s + 1;
       grossProfit := aadd a (grossProfit s) pnl;
       grossLoss := grossLoss s;
       maxEquity := peak; currentEquity := cur;
       maxDD := maxDD'; maxDDPercent := maxDDPercent';
       accLargestWin :=
         if gtb pnl (accLargestWin s) then pnl else accLargestWin s;
       accLargestLoss := accLargestLoss s;
       accStreak := if 0 <=? accStreak s then accStreak s + 1 else 1 |}
  else
    {| wins := wins s;
       grossProfit := grossProfit s;
       grossLoss := aadd a (grossLoss s) (abs pnl);
       maxEquity := peak; currentEquity := cur;
       maxDD := maxDD'; maxDDPercent := maxDDPercent';
       accLargestWin := accLargestWin s;
       accLargestLoss :=
         if ltb pnl (accLargestLoss s) then pnl else accLargestLoss s;
       accStreak := if accStreak s <=? 0 then accStreak s - 1 else -1 |}.

Definition metricsFinishG (a : Arith) (initialBalance : num) (n : Z)
    (s : MetricsAcc) : Metrics :=
  let losses := n - wins s in
  let winRate :=
    if 0 <? n then amul a (adiv a (ofZ (wins s)) (ofZ n)) (ofZ 100)
    else zero in
  let profitFactor :=
    if gtb (grossLoss s) zero then adiv a (grossProfit s) (grossLoss s)
    else if gtb (grossProfit s) zero then ofZ 999 else zero in
  let averageWin :=
    if 0 <? wins s then adiv a (grossProfit s) (ofZ (wins s)) else zero in
  let averageLoss :=
    if 0 <? losses then adiv a (grossLoss s) (ofZ losses) else zero in
  let winPct := adiv a (ofZ (wins s)) (ofZ n) in
  let lossPct := adiv a (ofZ losses) (ofZ n) in
  {| totalTrades := n;
     winRate := winRate;
     profitFactor := profitFactor;
     expectancy :=
       if 0 <? n
       then asub a (amul a winPct averageWin) (amul a lossPct averageLoss)
       else zero;
     averageWin := averageWin;
     averageLoss := averageLoss;
     maxDrawdown := maxDD s;
     maxDrawdownPercent := maxDDPercent s;
     netProfit := asub a (currentEquity s) initialBalance;
     largestWin := accLargestWin s;
     largestLoss := accLargestLoss s;
     currentStreak := accStreak s |}.

Definition metricsOfG (a : Arith) (closedTrades : list Trade)
    (initialBalance : num) : Metrics :=
  metricsFinishG a initialBalance (Z.of_nat (length closedTrades))
    (fold_left (metricsStepG a) closedTrades (metricsInit initialBalance)).

Definition calculateMetricsG (a : Arith) (trades : list Trade)
    (initialBalance : num) : Metrics :=
  metricsOfG a (closedSorted trades) initialBalance.

Definition curveStepG (a : Arith) (h : Host) (s : CurveAcc) (trade : Trade)
  : CurveAcc :=
  let cur := aadd a (currentBalance s) (netPnL trade) in
  let peak := if gtb cur (maxBalance s) then cur else maxBalance s in
  let ddPercent :=
    if gtb peak zero
    then amul a (adiv a (asub a peak cur) peak) (ofZ 100)
    else zero in
  {| currentBalance := cur;
     maxBalance := peak;
     curve := curve s ++
       [ {| date := toLocaleDateString h (exitOr0 trade);
            timestamp := exitOr0 trade;
            equity := afixed2 a cur;
            drawdown := afixed2 a ddPercent |} ] |}.

Definition curveOfG (a : Arith) (h : Host) (now : Z)
    (sortedTrades : list Trade) (initialBalance : num) : list EquityPoint :=
  let start :=
    {| date := "Start";
       timestamp := match sortedTrades with
                    | t :: _ => entryDate t - 86400000
                    | [] => now
                    end;
       equity := initialBalance;
       drawdown := zero |} in
  curve (fold_left (curveStepG a h) sortedTrades
           {| currentBalance := initialBalance;
              maxBalance := initialBalance;
              curve := [start] |}).

Definition generateEquityCurveG (a : Arith) (h : Host) (now : Z)
    (trades : list Trade) (initialBalance : num) : list EquityPoint :=
  curveOfG a h now (closedSorted trades) initialBalance.

(** What is asked of [Number(x.toFixed(2))]: it sends 0 to 0, a number to a
    number, and never reverses the order of two numbers. *)
Definition roundingLaws (fx : num -> num) : Prop :=
  fx zero = zero
  /\ (forall x, x <> NaN -> fx x <> NaN)
  /\ (forall x y, ltb x y = true -> ltb (fx y) (fx x) = false).

(** The running peak and the unrounded drawdown percentage after each
    trade, as both loops compute them. *)
Fixpoint drawdownSteps (a : Arith) (cur peak : num) (pnls : list num)
  : list (num * num) :=
  match pnls with
  | [] => []
  | pnl :: rest =>
      let cur' := aadd a cur pnl in
      let peak' := if gtb cur' peak then cur' else peak in
      (peak', amul a (adiv a (asub a peak' cur') peak') (ofZ 100))
        :: drawdownSteps a cur' peak' rest
  end.

Definition drawdownTrace (a : Arith) (trades : list Trade)
    (initialBalance : num) : list (num * num) :=
  drawdownSteps a initialBalance initialBalance
    (map netPnL (closedSorted trades)).

(** A step on which the two functions can agree: over a positive peak the
    percentage is a number, not [NaN]; over a peak that is not positive,
    where only generateEquityCurve guards the division, the unguarded
    percentage of calculateMetrics is not positive. *)
Definition regularStep (step : num * num) : Prop :=
  if gtb (fst step) zero then snd step <> NaN
  else gtb (snd step) zero = false.

(** A sample arithmetic that overflows: a result of magnitude 2^1024 or
    more, beyond every binary64 number, becomes an infinity.  Used only to
    run the loops on an input that overflows. *)
Definition overflow (x : num) : num :=
  match x with
  | Fin _ =>
      if ltb x (ofZ (2 ^ 1024))
      then (if ltb (ofZ (- 2 ^ 1024)) x then x else NInf)
      else PInf
  | _ => x
  end.

Definition overflowingArith : Arith :=
  {| aadd := fun x y => overflow (add x y);
     asub := fun x y => overflow (sub x y);
     amul := fun x y => overflow (mul x y);
     adiv := fun x y => overflow (div x y);
     afixed2 := toFixed2 |}.

(** * Properties *)

(** ** The examples of the specification *)

Example spec_three_trades_metrics :
  let m := calculateMetrics threeTrades (ofZ 10000) in
  totalTrades m = 3
  /\ toQ (maxDrawdown m) = Some (2000 # 1)%Q
  /\ toQ (netProfit m) = Some (-500 # 1)%Q
  /\ toQ (winRate m) = Some (200 # 3)%Q
  /\ currentStreak m = 1.
Proof. by vm_compute. Qed.

Example spec_three_trades_curve :
  map (fun p => toQ (equity p))
    (generateEquityCurve sampleHost 0 threeTrades (ofZ 10000))
  = [Some (10000 # 1); Some (11000 # 1); Some (9000 # 1); Some (9500 # 1)]%Q.
Proof. by vm_compute. Qed.

Example spec_no_trades_metrics :
  let m := calculateMetrics [] (ofZ 10000) in
  totalTrades m = 0
  /\ toQ (netProfit m) = Some 0%Q
  /\ toQ (winRate m) = Some 0%Q
  /\ toQ (profitFactor m) = Some 0%Q.
Proof. by vm_compute. Qed.

Example spec_over_risking :
  getTradeViolations sampleHost
    {| id := "x"; entryDate := 10 * 3600000; exitDate := None;
       netPnL := zero; riskAmount := ofZ 300; session := LONDON;
       status := OPEN |} []
    (Some {| startBalance := ofZ 10000; maxRiskPerTrade := ofZ 2 |})
  = ["Risk ($300) exceeds max limit ($200)"]
  /\ getTradeViolations sampleHost
    {| id := "x"; entryDate := 10 * 3600000; exitDate := None;
       netPnL := zero; riskAmount := ofZ 150; session := LONDON;
       status := OPEN |} []
    (Some {| startBalance := ofZ 10000; maxRiskPerTrade := ofZ 2 |})
  = [].
Proof. by vm_compute. Qed.

Example spec_revenge_window :
  getTradeViolations sampleHost (closedTrade "B" (1000 + 10 * 60 * 1000) None 0)
    [closedTrade "A" 0 (Some 1000) (-100)] None = [revengeMessage]
  /\ getTradeViolations sampleHost
       (closedTrade "B" (1000 + 40 * 60 * 1000) None 0)
       [closedTrade "A" 0 (Some 1000) (-100)] None = [].
Proof. by vm_compute. Qed.

Example spec_london_session :
  sessionChecks
    {| id := "x"; entryDate := 3 * 3600000; exitDate := None;
       netPnL := zero; riskAmount := zero; session := LONDON;
       status := OPEN |}
  = ["Trade executed outside London session"]
  /\ sessionChecks
    {| id := "x"; entryDate := 10 * 3600000; exitDate := None;
       netPnL := zero; riskAmount := zero; session := LONDON;
       status := OPEN |}
  = [].
Proof. by vm_compute. Qed.

(** ** The stable sort *)

Section StableSortFacts.
Context {A : Type} (cmp : A -> A -> Z).

Lemma insertSorted_Permutation (x : A) (l : list A) :
  insertSorted cmp x l ≡ₚ x :: l.
Proof.
  induction l as [|y l IH]; simpl; [done|].
  destruct (cmp x y <=? 0); [done|].
  rewrite IH. apply Permutation_swap.
Qed.

Lemma sortBy_Permutation (l : list A) : sortBy cmp l ≡ₚ l.
Proof.
  induction l as [|x l IH]; simpl; [done|].
  rewrite insertSorted_Permutation. by rewrite IH.
Qed.

Lemma length_sortBy (l : list A) : length (sortBy cmp l) = length l.
Proof. apply Permutation_length, sortBy_Permutation. Qed.

Lemma sortBy_cons (x : A) (l : list A) :
  sortBy cmp (x :: l) = insertSorted cmp x (sortBy cmp l).
Proof. reflexivity. Qed.

(** The first element after sorting: the new element wins a tie against
    the first element of the rest, which came later in the array. *)
Lemma head_insertSorted (x : A) (l : list A) :
  head (insertSorted cmp x l) =
  match head l with
  | None => Some x
  | Some y => if cmp x y <=? 0 then Some x else Some y
  end.
Proof. destruct l as [|y l]; simpl; [done|]. by destruct (cmp x y <=? 0). Qed.
End StableSortFacts.

(** Sorting commutes with a map that the comparator does not see. *)
Lemma sortBy_map {A : Type} (cmp : A -> A -> Z) (f : A -> A) (l : list A) :
  (forall x y, cmp (f x) (f y) = cmp x y) ->
  sortBy cmp (map f l) = map f (sortBy cmp l).
Proof.
  intros Hf. induction l as [|x l IH]; simpl; [done|].
  rewrite IH. clear IH. induction (sortBy cmp l) as [|y s IHs]; simpl; [done|].
  rewrite Hf. destruct (cmp x y <=? 0); simpl; [done|]. by rewrite IHs.
Qed.

(** Sorting by a key in ascending order. *)
Section SortByKey.
Context {A : Type} (key : A -> Z).

Lemma insertSorted_asc_sorted (x : A) (l : list A) :
  Sorted (keyLe key) l -> Sorted (keyLe key) (insertSorted (ascBy key) x l).
Proof.
  induction l as [|y l IH]; simpl; intros Hs.
  - repeat constructor.
  - destruct (Z.leb_spec (ascBy key x y) 0) as [Hle|Hgt].
    + constructor; [done|]. constructor. unfold keyLe, ascBy in *. lia.
    + inversion Hs as [|? ? Hl Hhd]; subst. constructor; [by apply IH|].
      destruct l as [|z l]; simpl.
      * constructor. unfold keyLe, ascBy in *. lia.
      * destruct (Z.leb_spec (ascBy key x z) 0).
        -- constructor. unfold keyLe, ascBy in *. lia.
        -- constructor. by inversion Hhd.
Qed.

Lemma sortBy_asc_sorted (l : list A) :
  Sorted (keyLe key) (sortBy (ascBy key) l).
Proof.
  induction l as [|x l IH]; simpl; [constructor|].
  by apply insertSorted_asc_sorted.
Qed.

Lemma sortBy_asc_strongly_sorted (l : list A) :
  StronglySorted (keyLe key) (sortBy (ascBy key) l).
Proof.
  apply Sorted_StronglySorted; [|apply sortBy_asc_sorted].
  intros a b c. unfold keyLe. lia.
Qed.

Lemma StronglySorted_keyLe_NoDup (l : list A) :
  StronglySorted (keyLe key) l -> NoDup (map key l) ->
  StronglySorted (keyLt key) l.
Proof.
  induction 1 as [|x l Hl IH Hx]; intros Hnd; [constructor|].
  simpl in Hnd. apply NoDup_cons in Hnd as [Hnotin Hnd].
  constructor; [by apply IH|].
  rewrite Forall_forall in Hx |- *. intros y Hy.
  assert (key x <> key y).
  { intros Heq. apply Hnotin. rewrite Heq. by apply list_elem_of_fmap_2. }
  specialize (Hx y Hy). unfold keyLe, keyLt in *. lia.
Qed.

(** With pairwise distinct keys the sorted array depends on the elements
    only, not on the order they came in. *)
Lemma sortBy_asc_unique (l1 l2 : list A) :
  l1 ≡ₚ l2 -> NoDup (map key l1) ->
  sortBy (ascBy key) l1 = sortBy (ascBy key) l2.
Proof.
  intros Hp Hnd.
  assert (Hp' : sortBy (ascBy key) l1 ≡ₚ sortBy (ascBy key) l2).
  { by rewrite !sortBy_Permutation. }
  assert (AntiSymm (=) (keyLt key)).
  { intros a b. unfold keyLt. lia. }
  apply (StronglySorted_unique (keyLt key)); [| |done].
  - apply StronglySorted_keyLe_NoDup; [apply sortBy_asc_strongly_sorted|].
    by rewrite (sortBy_Permutation (ascBy key) l1).
  - apply StronglySorted_keyLe_NoDup; [apply sortBy_asc_strongly_sorted|].
    by rewrite (sortBy_Permutation (ascBy key) l2), <- Hp.
Qed.
End SortByKey.

(** ** Filtering and sorting the closed trades *)

Lemma closedSorted_Permutation (trades : list Trade) :
  closedSorted trades ≡ₚ List.filter isClosed trades.
Proof. apply sortBy_Permutation. Qed.

Lemma length_closedSorted (trades : list Trade) :
  length (closedSorted trades) = length (List.filter isClosed trades).
Proof. apply length_sortBy. Qed.

Lemma filter_isClosed_idemp (trades : list Trade) :
  List.filter isClosed (List.filter isClosed trades)
  = List.filter isClosed trades.
Proof.
  induction trades as [|t l IH]; simpl; [done|].
  destruct (isClosed t) eqn:Ht; simpl; [|done]. by rewrite Ht, IH.
Qed.

Lemma closedSorted_filter (trades : list Trade) :
  closedSorted (List.filter isClosed trades) = closedSorted trades.
Proof. unfold closedSorted. by rewrite filter_isClosed_idemp. Qed.

Lemma filter_map_comm {A : Type} (p : A -> bool) (f : A -> A) (l : list A) :
  (forall x, p (f x) = p x) ->
  List.filter p (map f l) = map f (List.filter p l).
Proof.
  intros Hp. induction l as [|x l IH]; simpl; [done|].
  rewrite Hp. destruct (p x); simpl; by rewrite IH.
Qed.

Lemma exitOr0_exitDefaulted (t : Trade) : exitOr0 (exitDefaulted t) = exitOr0 t.
Proof. reflexivity. Qed.

Lemma closedSorted_exitDefaulted (trades : list Trade) :
  closedSorted (map exitDefaulted trades)
  = map exitDefaulted (closedSorted trades).
Proof.
  unfold closedSorted. rewrite filter_map_comm by done.
  by apply sortBy_map.
Qed.

Lemma fold_metricsStep_exitDefaulted (l : list Trade) (s : MetricsAcc) :
  fold_left metricsStep (map exitDefaulted l) s = fold_left metricsStep l s.
Proof.
  revert s. induction l as [|t l IH]; intros s; simpl; [done|]. apply IH.
Qed.

(** ** C1: the unguarded division of calculateMetrics *)

(** C1.  With a starting balance of 0 and one losing trade the peak stays 0
    and [calculateMetrics] divides by it without a guard: the reported
    [maxDrawdownPercent] is [Infinity], not a finite number.  On the same
    input [generateEquityCurve], which guards the division with
    [maxBalance > 0], reports only finite drawdowns. *)
Theorem calculateMetrics_zero_balance_infinite :
  maxDrawdownPercent
    (calculateMetrics [closedTrade "a" 0 (Some 1000) (-100)] zero) = PInf
  /\ isFinite (maxDrawdownPercent
       (calculateMetrics [closedTrade "a" 0 (Some 1000) (-100)] zero)) = false
  /\ Forall (fun p => isFinite (drawdown p) = true)
       (generateEquityCurve sampleHost 0
          [closedTrade "a" 0 (Some 1000) (-100)] zero).
Proof.
  split; [by vm_compute|]. split; [by vm_compute|].
  vm_compute. by repeat constructor.
Qed.

(** ** C2: closed trades without an exit date *)

(** C2, counterexample.  A single CLOSED trade without exit date is counted:
    the result differs from the result on the sublist of CLOSED trades that
    have an exit date, which is empty. *)
Lemma calculateMetrics_counts_missing_exit :
  calculateMetrics [closedTrade "a" 0 None 100] (ofZ 10000)
  <> calculateMetrics
       (List.filter isClosedWithExit [closedTrade "a" 0 None 100])
       (ofZ 10000).
Proof.
  intros H. apply (f_equal totalTrades) in H. vm_compute in H. discriminate.
Qed.

(** C2, amended.  A CLOSED trade without exit date is not excluded: the
    result is the result on the sublist of trades with status CLOSED,
    whether or not they have an exit date, and [totalTrades] counts every
    one of them.  The loop walks exactly these trades, in non-decreasing
    order of [exitDate || 0]: a missing exit date stands for 0 in the sort
    and nowhere else, so writing it out as 0 changes nothing. *)
Theorem calculateMetrics_closed_only (trades : list Trade) (B : num) :
  calculateMetrics trades B = calculateMetrics (List.filter isClosed trades) B
  /\ calculateMetrics trades B
     = calculateMetrics (map exitDefaulted (List.filter isClosed trades)) B
  /\ totalTrades (calculateMetrics trades B)
     = Z.of_nat (length (List.filter isClosed trades))
  /\ exists walked,
       calculateMetrics trades B = metricsOf walked B
       /\ walked ≡ₚ List.filter isClosed trades
       /\ Sorted (keyLe exitOr0) walked.
Proof.
  split; [|split; [|split]].
  - unfold calculateMetrics. by rewrite closedSorted_filter.
  - unfold calculateMetrics, metricsOf.
    rewrite closedSorted_exitDefaulted, closedSorted_filter.
    by rewrite length_map, fold_metricsStep_exitDefaulted.
  - unfold calculateMetrics, metricsOf. cbn [totalTrades metricsFinish].
    by rewrite length_closedSorted.
  - exists (closedSorted trades). split; [done|].
    split; [apply closedSorted_Permutation|].
    apply (sortBy_asc_sorted exitOr0).
Qed.

(** ** The store level programs *)

Lemma fresh_array_unused (w : World) (b : nat) :
  is_Some (arrays w !! b) -> fresh (dom (arrays w)) <> b.
Proof.
  intros Hb Heq. apply (is_fresh (dom (arrays w))).
  rewrite Heq. by apply elem_of_dom.
Qed.

(** The prologue shared by the three functions: filter into a new array,
    sort the new array in place, then read it. *)
Lemma filter_sort_read {B : Type} (p : Trade -> bool)
    (cmp : Trade -> Trade -> Z) (a : nat) (k : list Trade -> JS B)
    (w : World) (l : list Trade) :
  arrays w !! a = Some l ->
  exists w', preserved w w'
    /\ bind (Array_filter p a)
         (fun filtered => bind (Array_sort cmp filtered)
            (fun sorted => bind (readArray sorted) k)) w
       = k (sortBy cmp (List.filter p l)) w'.
Proof.
  intros Ha.
  set (a' := fresh (dom (arrays w))).
  exists {| arrays := <[a' := sortBy cmp (List.filter p l)]>
                        (<[a' := List.filter p l]> (arrays w));
            clock := clock w |}.
  split.
  - split; [|done]. intros b Hb. simpl.
    assert (a' <> b) by (by apply fresh_array_unused).
    by rewrite !lookup_insert_ne.
  - unfold bind, Array_filter, Array_sort, readArray. rewrite Ha. simpl.
    fold a'. rewrite lookup_insert_eq. simpl. by rewrite lookup_insert_eq.
Qed.

Lemma calculateMetricsJS_run (a : nat) (B : num) (w : World) (l : list Trade) :
  arrays w !! a = Some l ->
  exists w', preserved w w'
    /\ calculateMetricsJS a B w = Some (calculateMetrics l B, w').
Proof.
  intros Ha. unfold calculateMetricsJS.
  destruct (filter_sort_read isClosed byExitAsc a
              (fun l => ret (metricsOf l B)) w l Ha) as (w' & Hw & Hrun).
  exists w'. split; [done|]. by rewrite Hrun.
Qed.

Lemma generateEquityCurveJS_run (h : Host) (a : nat) (B : num) (w : World)
    (l : list Trade) :
  arrays w !! a = Some l ->
  exists w', preserved w w'
    /\ generateEquityCurveJS h a B w
       = Some (generateEquityCurve h (clock w) l B, w').
Proof.
  intros Ha. unfold generateEquityCurveJS.
  destruct (filter_sort_read isClosed byExitAsc a
    (fun l => bind (match l with [] => Date_now | _ :: _ => ret 0 end)
                (fun now => ret (curveOf h now l B))) w l Ha)
    as (w' & Hw & Hrun).
  exists w'. split; [done|]. rewrite Hrun.
  unfold generateEquityCurve, closedSorted.
  destruct (sortBy byExitAsc (List.filter isClosed l)) as [|t s] eqn:Hs.
  - unfold bind, Date_now, ret. by rewrite (proj2 Hw).
  - reflexivity.
Qed.

Lemma getTradeViolationsJS_run (h : Host) (trade : Trade) (a : nat)
    (profile : option UserProfile) (w : World) (l : list Trade) :
  arrays w !! a = Some l ->
  exists w', preserved w w'
    /\ getTradeViolationsJS h trade a profile w
       = Some (getTradeViolations h trade l profile, w').
Proof.
  intros Ha. unfold getTradeViolationsJS.
  destruct (filter_sort_read (isPrevious trade) byExitDesc a
    (fun l => ret (riskChecks h trade profile ++ sessionChecks trade
                     ++ revengeCheck trade l)) w l Ha) as (w' & Hw & Hrun).
  exists w'. split; [done|]. by rewrite Hrun.
Qed.

Lemma worldOf_lookup (l : list Trade) (now : Z) :
  arrays (worldOf l now) !! 0%nat = Some l.
Proof. apply lookup_singleton_eq. Qed.

(** ** C9: the input array is not mutated *)

(** C9.  Each of the three functions, run on a store that holds the caller's
    array [l] at reference [a], terminates normally, returns the value of
    the pure function on [l], and leaves a store in which [a] still holds
    [l] and every other array the caller had is unchanged: [filter]
    allocates a fresh array and only that one is sorted in place. *)
Theorem analytics_preserve_input (h : Host) (trade : Trade)
    (profile : option UserProfile) (B : num) (a : nat) (w : World)
    (l : list Trade) :
  arrays w !! a = Some l ->
  (exists w', calculateMetricsJS a B w = Some (calculateMetrics l B, w')
      /\ arrays w' !! a = Some l /\ preserved w w')
  /\ (exists w', generateEquityCurveJS h a B w
                 = Some (generateEquityCurve h (clock w) l B, w')
      /\ arrays w' !! a = Some l /\ preserved w w')
  /\ (exists w', getTradeViolationsJS h trade a profile w
                 = Some (getTradeViolations h trade l profile, w')
      /\ arrays w' !! a = Some l /\ preserved w w').
Proof.
  intros Ha.
  assert (Hkeep : forall w', preserved w w' -> arrays w' !! a = Some l).
  { intros w' [Hw _]. rewrite Hw; [done|]. by rewrite Ha. }
  split; [|split].
  - destruct (calculateMetricsJS_run a B w l Ha) as (w' & Hw & Hrun).
    exists w'. auto.
  - destruct (generateEquityCurveJS_run h a B w l Ha) as (w' & Hw & Hrun).
    exists w'. auto.
  - destruct (getTradeViolationsJS_run h trade a profile w l Ha)
      as (w' & Hw & Hrun).
    exists w'. auto.
Qed.

(** The three functions on a store that holds a two-element array. *)
Lemma analytics_preserve_input_witness :
  let l := [closedTrade "b" 0 (Some 2000) 5; closedTrade "a" 0 (Some 1000) 7] in
  let w := worldOf l 42 in
  arrays w !! 0%nat = Some l
  /\ exists w', calculateMetricsJS 0%nat zero w
                = Some (calculateMetrics l zero, w')
       /\ arrays w' !! 0%nat = Some l /\ preserved w w'.
Proof.
  intros l w. split; [apply worldOf_lookup|].
  apply (analytics_preserve_input sampleHost (closedTrade "c" 0 None 0) None
           zero 0%nat w l (worldOf_lookup l 42)).
Defined.

(** ** C3: dependence on the clock *)

(** C3, counterexample.  The same (empty) trade list and the same starting
    balance, at two different times: the Start point carries [Date.now()],
    so the two curves differ. *)
Lemma generateEquityCurve_reads_clock :
  valueOf (generateEquityCurveJS sampleHost 0%nat (ofZ 10000) (worldOf [] 1000))
  <> valueOf (generateEquityCurveJS sampleHost 0%nat (ofZ 10000)
                (worldOf [] 2000)).
Proof.
  destruct (generateEquityCurveJS_run sampleHost 0%nat (ofZ 10000)
              (worldOf [] 1000) [] (worldOf_lookup [] 1000)) as (w1 & _ & H1).
  destruct (generateEquityCurveJS_run sampleHost 0%nat (ofZ 10000)
              (worldOf [] 2000) [] (worldOf_lookup [] 2000)) as (w2 & _ & H2).
  rewrite H1, H2. simpl. intros H. discriminate H.
Qed.

Lemma closedSorted_nil (l : list Trade) :
  List.filter isClosed l = [] -> closedSorted l = [].
Proof. intros H. unfold closedSorted. by rewrite H. Qed.

Lemma closedSorted_not_nil (l : list Trade) :
  List.filter isClosed l <> [] -> closedSorted l <> [].
Proof.
  intros H Hnil. apply H. apply Permutation_nil.
  by rewrite <- closedSorted_Permutation, Hnil.
Qed.

Lemma generateEquityCurve_clock_irrelevant (h : Host) (now1 now2 : Z)
    (l : list Trade) (B : num) :
  List.filter isClosed l <> [] ->
  generateEquityCurve h now1 l B = generateEquityCurve h now2 l B.
Proof.
  intros H. apply closedSorted_not_nil in H.
  unfold generateEquityCurve, curveOf.
  by destruct (closedSorted l).
Qed.

(** C3, amended.  Two calls on arrays with the same contents, in stores
    that may differ in everything else including the clock: calculateMetrics
    returns the same value; generateEquityCurve returns the same value when
    the list has at least one CLOSED trade; with no CLOSED trade each call
    returns the single Start point stamped with its own current time. *)
Theorem analytics_deterministic (h : Host) (B : num) (a1 a2 : nat)
    (w1 w2 : World) (l : list Trade) :
  arrays w1 !! a1 = Some l ->
  arrays w2 !! a2 = Some l ->
  (valueOf (calculateMetricsJS a1 B w1) = Some (calculateMetrics l B)
   /\ valueOf (calculateMetricsJS a2 B w2) = Some (calculateMetrics l B))
  /\ (List.filter isClosed l <> [] ->
      exists c, valueOf (generateEquityCurveJS h a1 B w1) = Some c
             /\ valueOf (generateEquityCurveJS h a2 B w2) = Some c)
  /\ (List.filter isClosed l = [] ->
      valueOf (generateEquityCurveJS h a1 B w1)
        = Some [ {| date := "Start"; timestamp := clock w1;
                    equity := B; drawdown := zero |} ]
      /\ valueOf (generateEquityCurveJS h a2 B w2)
        = Some [ {| date := "Start"; timestamp := clock w2;
                    equity := B; drawdown := zero |} ]).
Proof.
  intros H1 H2.
  destruct (calculateMetricsJS_run a1 B w1 l H1) as (? & _ & Hm1).
  destruct (calculateMetricsJS_run a2 B w2 l H2) as (? & _ & Hm2).
  destruct (generateEquityCurveJS_run h a1 B w1 l H1) as (? & _ & Hc1).
  destruct (generateEquityCurveJS_run h a2 B w2 l H2) as (? & _ & Hc2).
  rewrite Hm1, Hm2, Hc1, Hc2. simpl. repeat split.
  - intros Hne. exists (generateEquityCurve h (clock w1) l B).
    split; [done|]. f_equal. by apply generateEquityCurve_clock_irrelevant.
  - apply closedSorted_nil in H. unfold generateEquityCurve. by rewrite H.
  - apply closedSorted_nil in H. unfold generateEquityCurve. by rewrite H.
Qed.

(** Two calls at different times on a list with one CLOSED trade. *)
Lemma analytics_deterministic_witness :
  let l := [closedTrade "a" 0 (Some 1000) 7] in
  arrays (worldOf l 1000) !! 0%nat = Some l
  /\ arrays (worldOf l 2000) !! 0%nat = Some l
  /\ exists c,
       valueOf (generateEquityCurveJS sampleHost 0%nat zero (worldOf l 1000))
         = Some c
       /\ valueOf (generateEquityCurveJS sampleHost 0%nat zero (worldOf l 2000))
         = Some c.
Proof.
  intros l. split; [apply worldOf_lookup|]. split; [apply worldOf_lookup|].
  apply (analytics_deterministic sampleHost zero 0%nat 0%nat
           (worldOf l 1000) (worldOf l 2000) l
           (worldOf_lookup l 1000) (worldOf_lookup l 2000)).
  unfold l. simpl. discriminate.
Defined.

(** ** The shape of the equity curve *)

Lemma curveStep_timestamps (h : Host) (s : CurveAcc) (t : Trade) :
  map timestamp (curve (curveStep h s t))
  = map timestamp (curve s) ++ [exitOr0 t].
Proof. unfold curveStep. simpl. by rewrite map_app. Qed.

Lemma fold_curveStep_timestamps (h : Host) (l : list Trade) (s : CurveAcc) :
  map timestamp (curve (fold_left (curveStep h) l s))
  = map timestamp (curve s) ++ map exitOr0 l.
Proof.
  revert s. induction l as [|t l IH]; intros s; simpl.
  - by rewrite app_nil_r.
  - rewrite IH, curveStep_timestamps. by rewrite <- app_assoc.
Qed.

Lemma generateEquityCurve_timestamps (h : Host) (now : Z)
    (trades : list Trade) (B : num) :
  map timestamp (generateEquityCurve h now trades B)
  = startTimestamp now (closedSorted trades)
    :: map exitOr0 (closedSorted trades).
Proof.
  unfold generateEquityCurve, curveOf. by rewrite fold_curveStep_timestamps.
Qed.

Lemma closedSorted_exits_sorted (trades : list Trade) :
  Sorted Z.le (map exitOr0 (closedSorted trades)).
Proof.
  pose proof (sortBy_asc_sorted exitOr0 (List.filter isClosed trades)) as Hs.
  change (Sorted (keyLe exitOr0) (closedSorted trades)) in Hs.
  induction Hs as [|t l Hl IH Hhd]; simpl; [constructor|].
  constructor; [done|]. destruct Hhd; simpl; by constructor.
Qed.

(** ** C6: the length of the equity curve *)

(** C6, counterexample.  One CLOSED trade without exit date: no trade is
    "CLOSED with a defined exitDate", yet the curve has two points. *)
Lemma generateEquityCurve_length_missing_exit :
  length (generateEquityCurve sampleHost 0 [closedTrade "a" 0 None 100]
            (ofZ 10000))
  <> S (length (List.filter isClosedWithExit [closedTrade "a" 0 None 100])).
Proof. vm_compute. discriminate. Qed.

(** C6, amended.  The curve has one point per trade with status CLOSED,
    with or without an exit date, plus the Start point. *)
Theorem generateEquityCurve_length (h : Host) (now : Z) (trades : list Trade)
    (B : num) :
  length (generateEquityCurve h now trades B)
  = S (length (List.filter isClosed trades)).
Proof.
  rewrite <- (length_map timestamp), generateEquityCurve_timestamps.
  simpl. by rewrite length_map, length_closedSorted.
Qed.

(** ** C7: the order of the time stamps *)

(** C7, counterexample.  A CLOSED trade entered in November 2023 and without
    exit date: the Start point is one day before the entry, the trade's own
    point is stamped 0. *)
Lemma generateEquityCurve_start_after_first :
  ~ Sorted Z.le
      (map timestamp
         (generateEquityCurve sampleHost 0
            [closedTrade "a" 1700000000000 None 100] (ofZ 10000))).
Proof.
  rewrite generateEquityCurve_timestamps. vm_compute.
  intros H. inversion H as [|? ? _ Hhd]; subst.
  inversion Hhd as [|? ? Hle]; subst. by apply Hle.
Qed.

(** C7, amended.  The points after Start are stamped with [exitDate || 0] of
    the sorted trades and are in non-decreasing order.  The whole list,
    Start included, is in non-decreasing order exactly when there is no
    CLOSED trade or the first sorted trade's [entryDate] minus one day is at
    most its [exitDate || 0]. *)
Theorem generateEquityCurve_timestamps_sorted (h : Host) (now : Z)
    (trades : list Trade) (B : num) :
  Sorted Z.le (map timestamp (tail (generateEquityCurve h now trades B)))
  /\ (Sorted Z.le (map timestamp (generateEquityCurve h now trades B))
      <-> forall t, head (closedSorted trades) = Some t ->
                    entryDate t - 86400000 <= exitOr0 t).
Proof.
  pose proof (generateEquityCurve_timestamps h now trades B) as Hts.
  pose proof (closedSorted_exits_sorted trades) as Hs.
  split.
  - destruct (generateEquityCurve h now trades B) as [|p c]; simpl in *.
    + constructor.
    + injection Hts as _ Hc. by rewrite Hc.
  - rewrite Hts. destruct (closedSorted trades) as [|t l]; simpl in *.
    + split; [done|]. intros _. by repeat constructor.
    + split.
      * intros H t' [= <-]. inversion H as [|? ? _ Hhd]; subst.
        by inversion Hhd.
      * intros H. constructor; [done|]. constructor. by apply H.
Qed.

(** Two trades, each closed after it was entered. *)
Lemma generateEquityCurve_timestamps_sorted_witness :
  Sorted Z.le
    (map timestamp
       (generateEquityCurve sampleHost 0
          [closedTrade "b" 5000 (Some 9000) 5;
           closedTrade "a" 1000 (Some 2000) 7] zero)).
Proof.
  apply (proj2 (proj2 (generateEquityCurve_timestamps_sorted sampleHost 0
          [closedTrade "b" 5000 (Some 9000) 5;
           closedTrade "a" 1000 (Some 2000) 7] zero))).
  intros t Ht. vm_compute in Ht. injection Ht as <-. vm_compute. discriminate.
Defined.

(** ** C5: order of the input array *)

Lemma filter_Permutation {A : Type} (p : A -> bool) (l1 l2 : list A) :
  l1 ≡ₚ l2 -> List.filter p l1 ≡ₚ List.filter p l2.
Proof.
  induction 1 as [|x l1 l2 _ IH|x y l|l1 l2 l3 _ IH1 _ IH2]; simpl.
  - done.
  - destruct (p x); [by constructor|done].
  - destruct (p x), (p y); try done. apply Permutation_swap.
  - by rewrite IH1.
Qed.





(** ** Rounding is monotone *)

Lemma sgn_Lt (q : Qc) : sgn q = Lt <-> (q < 0)%Qc.
Proof. unfold sgn. symmetry. apply Qclt_alt. Qed.

Lemma sgn_not_Lt (q : Qc) : sgn q <> Lt <-> (0 <= q)%Qc.
Proof. rewrite sgn_Lt. symmetry. apply Qcle_ngt. Qed.

Lemma sgn_Gt (q : Qc) : sgn q = Gt <-> (0 < q)%Qc.
Proof. unfold sgn. rewrite <- Qcgt_alt. done. Qed.

Lemma round_half_up_mono (q q' : Qc) :
  (q <= q')%Qc -> round_half_up q <= round_half_up q'.
Proof.
  intros H. unfold round_half_up. apply Qfloor_resp_le.
  change ((q + Q2Qc (1 # 2)) <= (q' + Q2Qc (1 # 2)))%Qc.
  by apply Qcplus_le_mono_r.
Qed.

Lemma round_half_up_nonneg (q : Qc) : (0 <= q)%Qc -> 0 <= round_half_up q.
Proof.
  intros H. change 0 with (round_half_up 0). by apply round_half_up_mono.
Qed.

Lemma Qc_hundredth_nonneg : (0 <= / Qc_of_Z 100)%Qc.
Proof. apply Qclt_le_weak, Qcinv_pos. by apply (Z2Qc_inj_lt 0 100). Qed.

Lemma Qc_hundred_nonneg : (0 <= Qc_of_Z 100)%Qc.
Proof. by apply (Z2Qc_inj_le 0 100). Qed.

Lemma ofCents_mono (z z' : Z) : z <= z' -> (ofCents z <= ofCents z')%Qc.
Proof.
  intros H. unfold ofCents, Qcdiv.
  apply Qcmult_le_mono_nonneg_r; [apply Qc_hundredth_nonneg|].
  by apply (proj1 (Z2Qc_inj_le z z')).
Qed.

Lemma ofCents_0 : ofCents 0 = 0%Qc.
Proof. by apply Qc_is_canon. Qed.

Lemma ofCents_nonneg (z : Z) : 0 <= z -> (0 <= ofCents z)%Qc.
Proof. intros H. rewrite <- ofCents_0. by apply ofCents_mono. Qed.

Lemma round2_nonneg (q : Qc) :
  (0 <= q)%Qc -> round2 q = ofCents (round_half_up (q * Qc_of_Z 100)).
Proof.
  intros H. apply sgn_not_Lt in H. unfold round2. by destruct (sgn q).
Qed.

Lemma round2_neg (q : Qc) :
  (q < 0)%Qc -> round2 q = (- ofCents (round_half_up (- q * Qc_of_Z 100)))%Qc.
Proof. intros H. apply sgn_Lt in H. unfold round2. by rewrite H. Qed.

Lemma round2_mono (q q' : Qc) : (q <= q')%Qc -> (round2 q <= round2 q')%Qc.
Proof.
  intros Hle.
  destruct (Qclt_le_dec q 0) as [Hq|Hq], (Qclt_le_dec q' 0) as [Hq'|Hq'].
  - rewrite !round2_neg by done. apply Qcopp_le_compat, ofCents_mono.
    apply round_half_up_mono.
    apply Qcmult_le_mono_nonneg_r; [apply Qc_hundred_nonneg|].
    by apply Qcopp_le_compat.
  - rewrite round2_neg, round2_nonneg by done.
    apply Qcle_trans with 0%Qc.
    + change 0%Qc with (- 0)%Qc. apply Qcopp_le_compat, ofCents_nonneg.
      apply round_half_up_nonneg.
      apply Qcmult_nonneg_nonneg; [|apply Qc_hundred_nonneg].
      change 0%Qc with (- 0)%Qc. by apply Qcopp_le_compat, Qclt_le_weak.
    + apply ofCents_nonneg, round_half_up_nonneg.
      by apply Qcmult_nonneg_nonneg; [|apply Qc_hundred_nonneg].
  - exfalso.
    apply (proj1 (Qcle_ngt 0 q')); [by apply Qcle_trans with q|done].
  - rewrite !round2_nonneg by done. apply ofCents_mono, round_half_up_mono.
    by apply Qcmult_le_mono_nonneg_r; [apply Qc_hundred_nonneg|].
Qed.

Lemma ltb_Fin (x y : Qc) : ltb (Fin x) (Fin y) = true <-> (x < y)%Qc.
Proof.
  simpl. rewrite Qclt_alt. destruct (x ?= y)%Qc; split; congruence.
Qed.

Lemma ltb_Fin_false (x y : Qc) : ltb (Fin x) (Fin y) = false <-> (y <= x)%Qc.
Proof.
  rewrite Qcle_ngt, <- ltb_Fin.
  destruct (ltb (Fin x) (Fin y)); split; congruence.
Qed.

Lemma maxList_snoc (l : list num) (d : num) :
  maxList (l ++ [d]) = max (maxList l) d.
Proof. unfold maxList. by rewrite fold_left_app. Qed.

(** ** C4: the two drawdown computations *)

Lemma metricsStep_equity (s : MetricsAcc) (t : Trade) :
  currentEquity (metricsStep s t) = add (currentEquity s) (netPnL t).
Proof. unfold metricsStep. by destruct (gtb (netPnL t) zero). Qed.

Lemma metricsStep_peak (s : MetricsAcc) (t : Trade) :
  maxEquity (metricsStep s t)
  = nextPeak (add (currentEquity s) (netPnL t)) (maxEquity s).
Proof. unfold metricsStep. by destruct (gtb (netPnL t) zero). Qed.

Lemma metricsStep_maxDDPercent (s : MetricsAcc) (t : Trade) :
  maxDDPercent (metricsStep s t)
  = let cur := add (currentEquity s) (netPnL t) in
    let dd := ddPercentOf cur (nextPeak cur (maxEquity s)) in
    if gtb dd (maxDDPercent s) then dd else maxDDPercent s.
Proof. unfold metricsStep. by destruct (gtb (netPnL t) zero). Qed.

Lemma toFixed2_zero : toFixed2 zero = zero.
Proof. unfold zero, ofZ, toFixed2. f_equal. by apply Qc_is_canon. Qed.

(** C4, counterexample.  On the example of the specification with starting
    balance 10000, calculateMetrics reports 200/11 (18.1818...) per cent,
    while the largest drawdown on the curve is the rounded 18.18. *)
Lemma maxDrawdownPercent_not_curve_max :
  toQ (maxDrawdownPercent (calculateMetrics threeTrades (ofZ 10000)))
    = Some (200 # 11)%Q
  /\ toQ (maxList (map drawdown
            (generateEquityCurve sampleHost 0 threeTrades (ofZ 10000))))
    = Some (909 # 50)%Q
  /\ maxDrawdownPercent (calculateMetrics threeTrades (ofZ 10000))
     <> maxList (map drawdown
          (generateEquityCurve sampleHost 0 threeTrades (ofZ 10000))).
Proof.
  split; [by vm_compute|]. split; [by vm_compute|].
  intros H. apply (f_equal toQ) in H. vm_compute in H. discriminate.
Qed.

(** ** The first element of a stable descending sort *)

Section LatestFirst.
Context {A : Type} (key : A -> Z) (P : A -> bool).

Lemma head_sortBy_elem (l : list A) (y : A) :
  head (sortBy (descBy key) (List.filter P l)) = Some y ->
  y ∈ l /\ P y = true.
Proof.
  intros H.
  assert (Hy : y ∈ sortBy (descBy key) (List.filter P l)).
  { destruct (sortBy (descBy key) (List.filter P l)); simplify_eq/=. by left. }
  rewrite sortBy_Permutation in Hy.
  apply list_elem_of_In, filter_In in Hy as [Hy HP].
  by apply list_elem_of_In in Hy.
Qed.

Lemma head_sortBy_none (l : list A) :
  head (sortBy (descBy key) (List.filter P l)) = None ->
  forall q, q ∈ l -> P q = false.
Proof.
  intros H q Hq. destruct (P q) eqn:HP; [|done].
  assert (Hin : q ∈ sortBy (descBy key) (List.filter P l)).
  { rewrite sortBy_Permutation. apply list_elem_of_In, filter_In.
    by rewrite <- list_elem_of_In. }
  destruct (sortBy (descBy key) (List.filter P l));
    [by apply elem_of_nil in Hin|].
  discriminate H.
Qed.

(** The element that ends up first is the earliest element of the array
    among those of largest key that pass the filter. *)
Lemma head_sortBy_desc_filter (l : list A) (p : A) :
  head (sortBy (descBy key) (List.filter P l)) = Some p
  <-> exists l1 l2, l = l1 ++ p :: l2 /\ P p = true
        /\ (forall q, q ∈ l1 -> P q = true -> key q < key p)
        /\ (forall q, q ∈ l2 -> P q = true -> key q <= key p).
Proof.
  revert p. induction l as [|x l IH]; intros p.
  { split; [done|]. intros (l1 & l2 & H & _). by destruct l1. }
  split.
  - simpl. destruct (P x) eqn:HPx.
    + rewrite sortBy_cons, head_insertSorted.
      destruct (head (sortBy (descBy key) (List.filter P l))) as [y|] eqn:Hhd.
      * destruct (proj1 (IH y) eq_refl) as (m1 & m2 & -> & HPy & Hm1 & Hm2).
        destruct (Z.leb_spec (descBy key x y) 0) as [Hle|Hgt]; intros [= <-].
        -- exists [], (m1 ++ y :: m2). repeat split; [done|by inversion 1|].
           intros q Hq HPq. unfold descBy in Hle.
           apply elem_of_app in Hq as [Hq|Hq].
           ++ specialize (Hm1 q Hq HPq). lia.
           ++ apply elem_of_cons in Hq as [->|Hq]; [lia|].
              specialize (Hm2 q Hq HPq). lia.
        -- exists (x :: m1), m2. repeat split; [done| |done].
           intros q Hq HPq. unfold descBy in Hgt.
           apply elem_of_cons in Hq as [->|Hq]; [lia|]. by apply Hm1.
      * intros [= <-]. exists [], l. repeat split; [done|by inversion 1|].
        intros q Hq HPq. by rewrite (head_sortBy_none l Hhd q Hq) in HPq.
    + intros Hhd.
      destruct (proj1 (IH p) Hhd) as (m1 & m2 & -> & HPp & Hm1 & Hm2).
      exists (x :: m1), m2. repeat split; [done| |done].
      intros q Hq HPq. apply elem_of_cons in Hq as [->|Hq]; [congruence|].
      by apply Hm1.
  - intros (l1 & l2 & Heq & HPp & H1 & H2).
    destruct l1 as [|x' l1]; simplify_eq/=.
    + rewrite HPp, sortBy_cons, head_insertSorted.
      destruct (head (sortBy (descBy key) (List.filter P l2))) as [y|] eqn:Hhd;
        [|done].
      apply head_sortBy_elem in Hhd as [Hy HPy].
      specialize (H2 y Hy HPy).
      destruct (Z.leb_spec (descBy key p y) 0); [done|].
      unfold descBy in *. lia.
    + assert (Hhd : head (sortBy (descBy key) (List.filter P (l1 ++ p :: l2)))
                    = Some p).
      { apply IH. exists l1, l2. repeat split; [done| |done].
        intros q Hq. apply H1. by right. }
      destruct (P x') eqn:HPx; [|done].
      rewrite sortBy_cons, head_insertSorted, Hhd.
      specialize (H1 x' ltac:(by left) HPx).
      destruct (Z.leb_spec (descBy key x' p) 0); [|done].
      unfold descBy in *. lia.
Qed.
End LatestFirst.

(** ** C8: the revenge trading check *)

Lemma isPrevious_precedes (trade t : Trade) :
  isPrevious trade t = true <-> precedes trade t.
Proof.
  unfold isPrevious, precedes, exitTruthyUpTo.
  rewrite andb_true_iff, negb_true_iff, String.eqb_neq.
  destruct (exitDate t) as [e|].
  - rewrite andb_true_iff, negb_true_iff, Z.eqb_neq, Z.leb_le.
    split.
    + intros (? & ? & ?). split; [done|]. by exists e.
    + intros (? & e' & [= <-] & ? & ?). done.
  - split; [by intros [_ ?]|]. by intros (_ & e & ? & _).
Qed.

Lemma revengeMessage_not_risk (h : Host) (trade : Trade)
    (profile : option UserProfile) :
  revengeMessage ∉ riskChecks h trade profile.
Proof.
  unfold riskChecks. intros H. apply elem_of_app in H as [H|H].
  - destruct (gtb _ _); [|by apply elem_of_nil in H].
    apply list_elem_of_singleton in H. discriminate H.
  - destruct (_ && _); [|by apply elem_of_nil in H].
    apply list_elem_of_singleton in H. discriminate H.
Qed.

Lemma revengeMessage_not_session (trade : Trade) :
  revengeMessage ∉ sessionChecks trade.
Proof.
  unfold sessionChecks. intros H.
  destruct (session trade);
    repeat match type of H with
           | _ ∈ (if ?b then _ else _) => destruct b
           end;
    solve [ by apply elem_of_nil in H
          | apply list_elem_of_singleton in H; discriminate H ].
Qed.

Lemma revengeCheck_cases (trade : Trade) (previous : list Trade) :
  revengeCheck trade previous = [] \/
  revengeCheck trade previous = [revengeMessage].
Proof.
  unfold revengeCheck. destruct previous as [|p ?]; [by left|].
  destruct (exitDate p); [|by left]. destruct (_ && _); auto.
Qed.

Lemma revengeMessage_in_violations (h : Host) (trade : Trade)
    (allTrades : list Trade) (profile : option UserProfile) :
  revengeMessage ∈ getTradeViolations h trade allTrades profile
  <-> revengeCheck trade (previousTrades trade allTrades) = [revengeMessage].
Proof.
  unfold getTradeViolations. rewrite !elem_of_app. split.
  - intros [H|[H|H]].
    + by apply revengeMessage_not_risk in H.
    + by apply revengeMessage_not_session in H.
    + destruct (revengeCheck_cases trade (previousTrades trade allTrades))
        as [Hc|Hc]; [|done]. rewrite Hc in H. by apply elem_of_nil in H.
  - intros ->. right. right. by left.
Qed.

(** The check on the sorted array, spelled out on its first element. *)
Lemma revengeCheck_head (trade : Trade) (previous : list Trade) :
  revengeCheck trade previous = [revengeMessage]
  <-> exists p e, head previous = Some p /\ exitDate p = Some e /\ e <> 0
        /\ ltb (netPnL p) zero = true
        /\ entryDate trade - e < REVENGE_WINDOW_MS.
Proof.
  unfold revengeCheck. destruct previous as [|p rest]; simpl.
  { split; [done|]. by intros (? & ? & ? & _). }
  destruct (exitDate p) as [e|] eqn:He.
  - split.
    + intros H. exists p, e.
      destruct (ltb (netPnL p) zero); [|discriminate H].
      destruct (Z.eqb_spec e 0); [discriminate H|].
      destruct (Z.ltb_spec (entryDate trade - e) REVENGE_WINDOW_MS);
        [done|discriminate H].
    + intros (p' & e' & [= <-] & He' & Hne & Hl & Hw).
      rewrite He in He'. injection He' as <-.
      rewrite Hl. destruct (Z.eqb_spec e 0); [done|].
      destruct (Z.ltb_spec (entryDate trade - e) REVENGE_WINDOW_MS);
        [done|lia].
  - split; [done|]. intros (p' & e' & [= <-] & He' & _). congruence.
Qed.

Lemma previousTrades_head (trade : Trade) (allTrades : list Trade) (p : Trade) :
  head (previousTrades trade allTrades) = Some p
  <-> exists l1 l2, allTrades = l1 ++ p :: l2 /\ precedes trade p
        /\ (forall q, q ∈ l1 -> precedes trade q -> exitOr0 q < exitOr0 p)
        /\ (forall q, q ∈ l2 -> precedes trade q -> exitOr0 q <= exitOr0 p).
Proof.
  unfold previousTrades.
  rewrite (head_sortBy_desc_filter exitOr0 (isPrevious trade) allTrades p).
  split; intros (l1 & l2 & Heq & Hp & H1 & H2); exists l1, l2;
    (split; [done|]); (split; [by apply isPrevious_precedes|]);
    split; intros q Hq Hpq; (apply H1 || apply H2); try done;
    by apply isPrevious_precedes.
Qed.

(** C8, counterexample.  A losing trade closed at time stamp 0 and a trade
    entered one minute later: the exit date 0 is defined and the specified
    condition holds, but 0 is falsy, the filter drops the trade and no
    warning is emitted. *)
Lemma revenge_skips_exit_zero :
  ~ (revengeMessage ∈ getTradeViolations sampleHost
         (closedTrade "b" 60000 None 5)
         [closedTrade "a" 0 (Some 0) (-100); closedTrade "b" 60000 None 5]
         None
     <-> revengeAsSpecified (closedTrade "b" 60000 None 5)
           [closedTrade "a" 0 (Some 0) (-100); closedTrade "b" 60000 None 5]).
Proof.
  intros [_ H].
  assert (Hin : revengeMessage ∈ getTradeViolations sampleHost
            (closedTrade "b" 60000 None 5)
            [closedTrade "a" 0 (Some 0) (-100); closedTrade "b" 60000 None 5]
            None).
  { apply H. exists (closedTrade "a" 0 (Some 0) (-100)), 0.
    split; [by left|]. split; [split; [done|by exists 0]|].
    split; [done|]. split; [|done].
    intros q e' Hq [Hid _] He.
    apply elem_of_cons in Hq as [->|Hq]; [by injection He as <-|].
    apply list_elem_of_singleton in Hq as ->. done. }
  vm_compute in Hin. by apply elem_of_nil in Hin.
Qed.

(** C8, amended.  The revenge warning is emitted for a trade T if and only
    if, among the trades other than T (by id) whose exit date is defined,
    not 0, and at or before T's entry date, the one with the latest exit
    date -- the earliest in [allTrades] order when several share it -- has
    netPnL < 0 and T's entry is strictly less than 30 minutes after that
    exit.  When there is no such trade nothing is emitted; [allTrades] may
    contain T itself. *)
Theorem revenge_warning_iff (h : Host) (trade : Trade)
    (allTrades : list Trade) (profile : option UserProfile) :
  revengeMessage ∈ getTradeViolations h trade allTrades profile
  <-> revengeTriggered trade allTrades.
Proof.
  rewrite revengeMessage_in_violations, revengeCheck_head.
  unfold revengeTriggered. split.
  - intros (p & e & Hhd & He & Hne & Hl & Hw).
    apply previousTrades_head in Hhd as (l1 & l2 & Heq & Hp & H1 & H2).
    assert (Hk : exitOr0 p = e) by (unfold exitOr0; by rewrite He).
    rewrite Hk in H1, H2. by exists l1, p, l2, e.
  - intros (l1 & p & l2 & e & Heq & Hp & He & H1 & H2 & Hl & Hw).
    assert (Hk : exitOr0 p = e) by (unfold exitOr0; by rewrite He).
    exists p, e. split.
    + apply previousTrades_head. exists l1, l2. by rewrite Hk.
    + destruct Hp as (_ & e' & He' & Hne & _). by simplify_eq.
Qed.

(** ** C10: the revenge check does not look at the status *)

Lemma previousTrades_withStatus (f : Trade -> TradeStatus) (trade : Trade)
    (allTrades : list Trade) :
  previousTrades trade (map (withStatus f) allTrades)
  = map (withStatus f) (previousTrades trade allTrades).
Proof.
  unfold previousTrades. rewrite filter_map_comm by done.
  by apply sortBy_map.
Qed.

Lemma revengeCheck_withStatus (f : Trade -> TradeStatus) (trade : Trade)
    (previous : list Trade) :
  revengeCheck trade (map (withStatus f) previous)
  = revengeCheck trade previous.
Proof. by destruct previous. Qed.

Lemma previousTrades_elem (trade : Trade) (allTrades : list Trade) (t : Trade) :
  t ∈ previousTrades trade allTrades <-> t ∈ allTrades /\ precedes trade t.
Proof.
  unfold previousTrades. rewrite sortBy_Permutation.
  rewrite list_elem_of_In, filter_In, <- list_elem_of_In.
  by rewrite isPrevious_precedes.
Qed.

(** C10.  The revenge search keeps a trade exactly when it is another trade
    (by id) whose exit date is defined, nonzero and at or before the entry
    date of the examined trade, whatever its status: changing the statuses
    of the trades changes no violation list, a trade with exit date 0 is
    never kept, an OPEN loss with an exit date triggers the warning, and a
    PENDING win with a later exit date masks a CLOSED loss. *)
Theorem revenge_search_ignores_status :
  (forall (h : Host) (f : Trade -> TradeStatus) (trade : Trade)
          (allTrades : list Trade) (profile : option UserProfile),
      getTradeViolations h trade (map (withStatus f) allTrades) profile
      = getTradeViolations h trade allTrades profile)
  /\ (forall (trade t : Trade) (allTrades : list Trade),
        t ∈ previousTrades trade allTrades
        <-> t ∈ allTrades /\ id t <> id trade
            /\ exists e, exitDate t = Some e /\ e <> 0
                         /\ e <= entryDate trade)
  /\ (forall (trade t : Trade) (allTrades : list Trade),
        exitDate t = Some 0 -> t ∉ previousTrades trade allTrades)
  /\ getTradeViolations sampleHost examined [openLoss] None = [revengeMessage]
  /\ getTradeViolations sampleHost examined
       [closedTrade "c" 0 (Some 1000) (-100)] None = [revengeMessage]
  /\ getTradeViolations sampleHost examined
       [closedTrade "c" 0 (Some 1000) (-100); pendingWin] None = [].
Proof.
  split; [|split; [|split]].
  - intros h f trade allTrades profile. unfold getTradeViolations.
    by rewrite previousTrades_withStatus, revengeCheck_withStatus.
  - intros trade t allTrades. apply previousTrades_elem.
  - intros trade t allTrades He Hin.
    apply previousTrades_elem in Hin as (_ & _ & e & He' & Hne & _).
    congruence.
  - by vm_compute.
Qed.

(** * Further properties *)

(** ** calculateMetrics: counters *)

Lemma metricsStep_streak (s : MetricsAcc) (t : Trade) :
  accStreak (metricsStep s t)
  = if isWin t
    then (if 0 <=? accStreak s then accStreak s + 1 else 1)
    else (if accStreak s <=? 0 then accStreak s - 1 else -1).
Proof. unfold metricsStep, isWin. by destruct (gtb (netPnL t) zero). Qed.

Lemma metricsStep_wins (s : MetricsAcc) (t : Trade) :
  wins (metricsStep s t) = if isWin t then wins s + 1 else wins s.
Proof. unfold metricsStep, isWin. by destruct (gtb (netPnL t) zero). Qed.

Lemma fold_left_snoc {A B : Type} (f : A -> B -> A) (l : list B) (x : B)
    (a : A) :
  fold_left f (l ++ [x]) a = f (fold_left f l a) x.
Proof. by rewrite fold_left_app. Qed.

Lemma signedStreak_snoc (o : list bool) (b : bool) :
  signedStreak (o ++ [b])
  = if b
    then (if 0 <=? signedStreak o then signedStreak o + 1 else 1)
    else (if signedStreak o <=? 0 then signedStreak o - 1 else -1).
Proof.
  unfold signedStreak. rewrite rev_app_distr. simpl.
  destruct (rev o) as [|[] r], b; simpl; try done;
    repeat match goal with
           | |- context [?a <=? ?b] => destruct (Z.leb_spec a b)
           end; lia.
Qed.

Lemma fold_metricsStep_streak (l : list Trade) (B : num) :
  accStreak (fold_left metricsStep l (metricsInit B))
  = signedStreak (map isWin l).
Proof.
  induction l as [|t l IH] using rev_ind; [done|].
  rewrite fold_left_snoc, metricsStep_streak, map_app, IH. simpl map.
  by rewrite signedStreak_snoc.
Qed.

(** X1.  [currentStreak] is the run of equal outcomes at the end of the
    closed trades in exit order: +k after k consecutive wins, -k after k
    consecutive non-wins, 0 when there is no closed trade. *)
Theorem currentStreak_is_trailing_run (trades : list Trade) (B : num) :
  currentStreak (calculateMetrics trades B)
  = signedStreak (map isWin (closedSorted trades)).
Proof.
  unfold calculateMetrics, metricsOf. cbn [currentStreak metricsFinish].
  apply fold_metricsStep_streak.
Qed.

Lemma signedStreak_sign (o : list bool) :
  (0 < signedStreak o <-> last o = Some true)
  /\ (signedStreak o < 0 <-> last o = Some false)
  /\ (signedStreak o = 0 <-> o = [])
  /\ Z.abs (signedStreak o) <= Z.of_nat (length o).
Proof.
  induction o as [|b o IH] using rev_ind.
  { repeat split; try done; unfold signedStreak; simpl; lia. }
  rewrite signedStreak_snoc, last_snoc, length_app. simpl length.
  destruct IH as (_ & _ & _ & Habs).
  assert (Hne : o ++ [b] <> []) by (by destruct o).
  destruct b; repeat match goal with
                     | |- context [?a <=? ?b] => destruct (Z.leb_spec a b)
                     end;
    repeat split; try done; try lia; intros; exfalso; lia.
Qed.

Lemma last_map {A B : Type} (f : A -> B) (l : list A) :
  last (map f l) = f <$> last l.
Proof.
  induction l as [|x l _] using rev_ind; [done|].
  rewrite map_app. simpl map. by rewrite !last_snoc.
Qed.

(** X2.  The sign of [currentStreak] tells the outcome of the last closed
    trade in exit order, it is 0 only when there is no CLOSED trade, and
    its magnitude never exceeds [totalTrades]. *)
Theorem currentStreak_sign (trades : list Trade) (B : num) :
  let m := calculateMetrics trades B in
  (0 < currentStreak m <-> isWin <$> last (closedSorted trades) = Some true)
  /\ (currentStreak m < 0
      <-> isWin <$> last (closedSorted trades) = Some false)
  /\ (currentStreak m = 0 <-> List.filter isClosed trades = [])
  /\ Z.abs (currentStreak m) <= totalTrades m.
Proof.
  intros m. unfold m, calculateMetrics, metricsOf.
  cbn [currentStreak totalTrades metricsFinish].
  rewrite fold_metricsStep_streak.
  destruct (signedStreak_sign (map isWin (closedSorted trades)))
    as (Hpos & Hneg & Hzero & Habs).
  rewrite last_map in Hpos, Hneg.
  split; [done|]. split; [done|]. split.
  - rewrite Hzero. split.
    + intros H. apply map_eq_nil in H. apply Permutation_nil.
      by rewrite <- closedSorted_Permutation, H.
    + intros H. by rewrite (closedSorted_nil _ H).
  - by rewrite length_map in Habs.
Qed.

(** ** calculateMetrics: win rate *)

Lemma fold_metricsStep_wins (l : list Trade) (s : MetricsAcc) :
  wins (fold_left metricsStep l s)
  = wins s + Z.of_nat (length (List.filter isWin l)).
Proof.
  revert s. induction l as [|t l IH]; intros s; simpl; [lia|].
  rewrite IH, metricsStep_wins. destruct (isWin t); simpl; lia.
Qed.

Lemma countWins_closedSorted (trades : list Trade) :
  length (List.filter isWin (closedSorted trades))
  = length (List.filter isWin (List.filter isClosed trades)).
Proof.
  apply Permutation_length, filter_Permutation, closedSorted_Permutation.
Qed.

Lemma length_filter_le {A : Type} (p : A -> bool) (l : list A) :
  (length (List.filter p l) <= length l)%nat.
Proof.
  induction l as [|x l IH]; simpl; [lia|]. destruct (p x); simpl; lia.
Qed.

Lemma sgn_Qc_of_Z_pos (n : Z) : 0 < n -> sgn (Qc_of_Z n) = Gt.
Proof. intros H. apply sgn_Gt. by apply (Z2Qc_inj_lt 0 n). Qed.

Lemma div_ofZ_pos (w n : Z) :
  0 < n -> div (ofZ w) (ofZ n) = Fin (Qc_of_Z w / Qc_of_Z n).
Proof. intros H. unfold ofZ, div. by rewrite (sgn_Qc_of_Z_pos n H). Qed.

Lemma calculateMetrics_winRate (trades : list Trade) (B : num) :
  winRate (calculateMetrics trades B)
  = winRateOf (length (List.filter isWin (List.filter isClosed trades)))
      (length (List.filter isClosed trades)).
Proof.
  unfold calculateMetrics, metricsOf. cbn [winRate metricsFinish].
  rewrite fold_metricsStep_wins, countWins_closedSorted, length_closedSorted.
  cbn [wins metricsInit]. rewrite Z.add_0_l.
  destruct (length (List.filter isClosed trades)) as [|n] eqn:Hn; [done|].
  assert (Hpos : 0 < Z.of_nat (S n)) by lia.
  apply Z.ltb_lt in Hpos as Hb. rewrite Hb, (div_ofZ_pos _ _ Hpos). done.
Qed.

Lemma Qc_ratio_bounds (w n : Z) :
  0 <= w <= n -> 0 < n ->
  (0 <= Qc_of_Z w / Qc_of_Z n * Qc_of_Z 100)%Qc
  /\ (Qc_of_Z w / Qc_of_Z n * Qc_of_Z 100 <= Qc_of_Z 100)%Qc.
Proof.
  intros [Hw Hwn] Hn.
  assert (Hn' : (0 < Qc_of_Z n)%Qc) by (by apply (Z2Qc_inj_lt 0 n)).
  assert (Hinv : (0 < / Qc_of_Z n)%Qc) by (by apply Qcinv_pos).
  assert (Hw' : (0 <= Qc_of_Z w)%Qc) by (by apply (Z2Qc_inj_le 0 w)).
  assert (Hwn' : (Qc_of_Z w <= Qc_of_Z n)%Qc)
    by (by apply (proj1 (Z2Qc_inj_le w n))).
  split.
  - apply Qcmult_nonneg_nonneg; [|apply Qc_hundred_nonneg].
    apply Qcmult_nonneg_nonneg; [done|by apply Qclt_le_weak].
  - rewrite <- (Qcmult_1_l (Qc_of_Z 100)) at 2.
    apply Qcmult_le_mono_nonneg_r; [apply Qc_hundred_nonneg|].
    assert (H1 : (Qc_of_Z n / Qc_of_Z n = 1)%Qc).
    { apply Qcmult_inv_r. intros H0. rewrite H0 in Hn'.
      by apply (Qclt_not_eq 0 0). }
    rewrite <- H1. unfold Qcdiv.
    apply Qcmult_le_mono_nonneg_r; [by apply Qclt_le_weak|done].
Qed.

Lemma length_filter_all {A : Type} (p : A -> bool) (l : list A) :
  length (List.filter p l) = length l <-> Forall (fun x => p x = true) l.
Proof.
  induction l as [|x l IH]; simpl; [by split; [constructor|]|].
  pose proof (length_filter_le p l) as Hle.
  destruct (p x) eqn:Hp; simpl.
  - rewrite Forall_cons, <- IH. split; [by intros [= ?]|by intros [_ ->]].
  - split; [lia|]. intros H. apply Forall_cons in H as [H _]. congruence.
Qed.

Lemma length_filter_none {A : Type} (p : A -> bool) (l : list A) :
  length (List.filter p l) = 0%nat <-> Forall (fun x => p x = false) l.
Proof.
  induction l as [|x l IH]; simpl; [by split; [constructor|]|].
  destruct (p x) eqn:Hp; simpl.
  - split; [done|]. intros H. apply Forall_cons in H as [H _]. congruence.
  - rewrite Forall_cons, <- IH. split; [done|by intros [_ ?]].
Qed.

Lemma Qc_of_Z_nonzero (n : Z) : n <> 0 -> Qc_of_Z n <> 0%Qc.
Proof.
  intros Hn H0. rewrite <- Z2Qc_inj_0 in H0. by apply Z2Qc_inj in H0.
Qed.

Lemma Qc_ratio_full (w n : Z) :
  0 < n ->
  (Qc_of_Z w / Qc_of_Z n * Qc_of_Z 100 = Qc_of_Z 100)%Qc <-> w = n.
Proof.
  intros Hn.
  assert (Hn' : Qc_of_Z n <> 0%Qc) by (apply Qc_of_Z_nonzero; lia).
  assert (H100 : Qc_of_Z 100 <> 0%Qc) by (by apply Qc_of_Z_nonzero).
  split.
  - intros H. apply Z2Qc_inj.
    transitivity ((Qc_of_Z w / Qc_of_Z n * Qc_of_Z 100)
                  * Qc_of_Z n / Qc_of_Z 100)%Qc; [by field|].
    rewrite H. by field.
  - intros ->. by field.
Qed.

Lemma Qc_ratio_zero (w n : Z) :
  0 < n -> (Qc_of_Z w / Qc_of_Z n * Qc_of_Z 100 = Qc_of_Z 0)%Qc <-> w = 0.
Proof.
  intros Hn.
  assert (Hn' : Qc_of_Z n <> 0%Qc) by (apply Qc_of_Z_nonzero; lia).
  assert (H100 : Qc_of_Z 100 <> 0%Qc) by (by apply Qc_of_Z_nonzero).
  split.
  - intros H. apply Z2Qc_inj. rewrite Z2Qc_inj_0 in *.
    transitivity ((Qc_of_Z w / Qc_of_Z n * Qc_of_Z 100)
                  * Qc_of_Z n / Qc_of_Z 100)%Qc; [by field|].
    rewrite H. by field.
  - intros ->. rewrite Z2Qc_inj_0. by field.
Qed.

(** X3.  [winRate] is always a finite percentage between 0 and 100,
    whatever the PnL values and the starting balance: it is 100 exactly
    when there is a CLOSED trade and every CLOSED trade has [netPnL > 0],
    and 0 exactly when no CLOSED trade has [netPnL > 0]. *)
Theorem winRate_bounds (trades : list Trade) (B : num) :
  (exists r, winRate (calculateMetrics trades B) = Fin r
             /\ (0 <= r)%Qc /\ (r <= Qc_of_Z 100)%Qc)
  /\ (winRate (calculateMetrics trades B) = ofZ 100
      <-> List.filter isClosed trades <> []
          /\ Forall (fun t => isWin t = true) (List.filter isClosed trades))
  /\ (winRate (calculateMetrics trades B) = zero
      <-> Forall (fun t => isWin t = false) (List.filter isClosed trades)).
Proof.
  rewrite calculateMetrics_winRate.
  rewrite <- length_filter_all, <- length_filter_none.
  pose proof (length_filter_le isWin (List.filter isClosed trades)) as Hle.
  destruct (List.filter isClosed trades) as [|t l] eqn:Hcl.
  { simpl. split; [|split].
    - exists (Qc_of_Z 0). split; [done|]. split; [done|].
      by apply (Z2Qc_inj_le 0 100).
    - split; [|by intros [? _]]. intros H. apply (f_equal valQ) in H.
      by apply (Z2Qc_inj 0 100) in H.
    - done. }
  set (w := length (List.filter isWin (t :: l))) in *.
  set (n := length (t :: l)) in *.
  assert (Hn : 0 < Z.of_nat n) by (unfold n; simpl; lia).
  assert (Hwn : 0 <= Z.of_nat w <= Z.of_nat n) by lia.
  unfold winRateOf. unfold n at 1 4 5. cbn [length]. fold n.
  split; [|split].
  - eexists. split; [done|]. by apply Qc_ratio_bounds.
  - unfold ofZ. split.
    + intros H. apply (f_equal valQ) in H. cbn [valQ] in H.
      apply Qc_ratio_full in H; [|done].
      split; [done|]. by apply Nat2Z.inj.
    + intros [_ H]. f_equal. apply Qc_ratio_full; [done|]. by rewrite H.
  - unfold zero, ofZ. split.
    + intros H. apply (f_equal valQ) in H. cbn [valQ] in H.
      apply Qc_ratio_zero in H; [|done]. lia.
    + intros H. f_equal. apply Qc_ratio_zero; [done|]. by rewrite H.
Qed.

(** X4.  [totalTrades] and [winRate] depend neither on the order of the
    input array, even when exit dates coincide, nor on the starting
    balance. *)
Theorem winRate_order_and_balance_independent (trades trades' : list Trade)
    (B B' : num) :
  trades ≡ₚ trades' ->
  totalTrades (calculateMetrics trades B)
  = totalTrades (calculateMetrics trades' B')
  /\ winRate (calculateMetrics trades B)
     = winRate (calculateMetrics trades' B').
Proof.
  intros Hp. split.
  - unfold calculateMetrics, metricsOf. cbn [totalTrades metricsFinish].
    rewrite !length_closedSorted. f_equal.
    by apply Permutation_length, filter_Permutation.
  - rewrite !calculateMetrics_winRate.
    assert (Hc : List.filter isClosed trades ≡ₚ List.filter isClosed trades')
      by (by apply filter_Permutation).
    f_equal; apply Permutation_length; [by apply filter_Permutation|done].
Qed.

(** The two tied trades of the order counterexample, in both orders and
    with two balances. *)
Lemma winRate_order_and_balance_independent_witness :
  winRate (calculateMetrics
     [closedTrade "w" 0 (Some 1000) 100; closedTrade "l" 0 (Some 1000) (-100)]
     (ofZ 10000))
  = winRate (calculateMetrics
     [closedTrade "l" 0 (Some 1000) (-100); closedTrade "w" 0 (Some 1000) 100]
     zero).
Proof.
  apply (winRate_order_and_balance_independent
     [closedTrade "w" 0 (Some 1000) 100; closedTrade "l" 0 (Some 1000) (-100)]
     [closedTrade "l" 0 (Some 1000) (-100); closedTrade "w" 0 (Some 1000) 100]
     (ofZ 10000) zero).
  apply Permutation_swap.
Defined.

(** ** The order of numbers *)

Lemma ltb_irrefl (a : num) : ltb a a = false.
Proof.
  destruct a as [x| | |]; try done. apply ltb_Fin_false. apply Qcle_refl.
Qed.

Lemma ltb_asym (a b : num) : ltb a b = true -> ltb b a = false.
Proof.
  destruct a as [x| | |], b as [y| | |]; try done.
  rewrite ltb_Fin, ltb_Fin_false. apply Qclt_le_weak.
Qed.

(** [p <= w < q] leaves no room for [q < p]. *)
Lemma ltb_above (w q p : num) :
  ltb w q = true -> ltb w p = false -> ltb q p = false.
Proof.
  destruct w as [x| | |], q as [y| | |], p as [z| | |]; try done.
  rewrite ltb_Fin, !ltb_Fin_false. intros H1 H2.
  apply Qclt_le_weak. by apply Qcle_lt_trans with x.
Qed.

(** [q < w <= p] leaves no room for [p < q]. *)
Lemma ltb_below (w q p : num) :
  ltb q w = true -> ltb p w = false -> ltb p q = false.
Proof.
  destruct w as [x| | |], q as [y| | |], p as [z| | |]; try done.
  rewrite ltb_Fin, !ltb_Fin_false. intros H1 H2.
  apply Qclt_le_weak. by apply Qclt_le_trans with x.
Qed.

(** [a <= b <= c] for a middle number that is not [NaN]. *)
Lemma ltb_between (a b c : num) :
  b <> NaN -> ltb b a = false -> ltb c b = false -> ltb c a = false.
Proof.
  destruct a as [x| | |], b as [y| | |], c as [z| | |]; try done.
  rewrite !ltb_Fin_false. intros _ H1 H2. by apply Qcle_trans with y.
Qed.

(** ** calculateMetrics: largest win and largest loss *)

Lemma metricsStep_largestWin (s : MetricsAcc) (t : Trade) :
  accLargestWin (metricsStep s t)
  = if isWin t && gtb (netPnL t) (accLargestWin s)
    then netPnL t else accLargestWin s.
Proof.
  unfold metricsStep, isWin. by destruct (gtb (netPnL t) zero); simpl.
Qed.

Lemma metricsStep_largestLoss (s : MetricsAcc) (t : Trade) :
  accLargestLoss (metricsStep s t)
  = if negb (isWin t) && ltb (netPnL t) (accLargestLoss s)
    then netPnL t else accLargestLoss s.
Proof.
  unfold metricsStep, isWin. by destruct (gtb (netPnL t) zero); simpl.
Qed.

(** What the loop keeps true of [largestWin]: it is not below 0, no trade
    seen so far exceeds it, and it is 0 or the PnL of a winning trade seen
    so far. *)
Lemma fold_metricsStep_largestWin (l : list Trade) (B : num) :
  let W := accLargestWin (fold_left metricsStep l (metricsInit B)) in
  ltb W zero = false
  /\ Forall (fun t => gtb (netPnL t) W = false) l
  /\ (W = zero \/ exists t, t ∈ l /\ isWin t = true /\ netPnL t = W).
Proof.
  induction l as [|t l IH] using rev_ind.
  { cbn zeta. split; [apply (ltb_irrefl zero)|].
    split; [constructor|by left]. }
  cbn zeta in *. rewrite fold_left_snoc, metricsStep_largestWin.
  destruct IH as (Hpos & Hall & Hsrc).
  set (W := accLargestWin (fold_left metricsStep l (metricsInit B))) in *.
  destruct (isWin t) eqn:Hw; simpl.
  - destruct (gtb (netPnL t) W) eqn:Hgt.
    + split; [by apply ltb_asym|]. split.
      * apply Forall_app. split.
        -- eapply Forall_impl; [exact Hall|]. intros t' Ht'. unfold gtb in *.
           by apply (ltb_above W).
        -- constructor; [apply ltb_irrefl|constructor].
      * right. exists t. split; [|done]. apply elem_of_app. right. by left.
    + split; [done|]. split.
      * apply Forall_app. split; [done|]. by constructor.
      * destruct Hsrc as [?|(t' & ? & ? & ?)]; [by left|].
        right. exists t'. split; [|done]. apply elem_of_app. by left.
  - split; [done|]. split.
    + apply Forall_app. split; [done|]. constructor; [|constructor].
      unfold gtb, isWin in *.
      apply (ltb_between (netPnL t) zero W); [done|exact Hw|exact Hpos].
    + destruct Hsrc as [?|(t' & ? & ? & ?)]; [by left|].
      right. exists t'. split; [|done]. apply elem_of_app. by left.
Qed.

Lemma fold_metricsStep_largestLoss (l : list Trade) (B : num) :
  let L := accLargestLoss (fold_left metricsStep l (metricsInit B)) in
  ltb zero L = false
  /\ Forall (fun t => ltb (netPnL t) L = false) l
  /\ (L = zero \/ exists t, t ∈ l /\ isWin t = false /\ netPnL t = L).
Proof.
  induction l as [|t l IH] using rev_ind.
  { cbn zeta. split; [apply (ltb_irrefl zero)|].
    split; [constructor|by left]. }
  cbn zeta in *. rewrite fold_left_snoc, metricsStep_largestLoss.
  destruct IH as (Hneg & Hall & Hsrc).
  set (L := accLargestLoss (fold_left metricsStep l (metricsInit B))) in *.
  destruct (isWin t) eqn:Hw; simpl.
  - split; [done|]. split.
    + apply Forall_app. split; [done|]. constructor; [|constructor].
      unfold isWin, gtb in Hw. by apply (ltb_above zero).
    + destruct Hsrc as [?|(t' & ? & ? & ?)]; [by left|].
      right. exists t'. split; [|done]. apply elem_of_app. by left.
  - destruct (ltb (netPnL t) L) eqn:Hlt.
    + split; [exact Hw|]. split.
      * apply Forall_app. split.
        -- eapply Forall_impl; [exact Hall|]. intros t' Ht'.
           by apply (ltb_below L).
        -- constructor; [apply ltb_irrefl|constructor].
      * right. exists t. split; [|done]. apply elem_of_app. right. by left.
    + split; [done|]. split.
      * apply Forall_app. split; [done|]. by constructor.
      * destruct Hsrc as [?|(t' & ? & ? & ?)]; [by left|].
        right. exists t'. split; [|done]. apply elem_of_app. by left.
Qed.

Lemma closedSorted_elem (trades : list Trade) (t : Trade) :
  t ∈ closedSorted trades <-> t ∈ trades /\ isClosed t = true.
Proof.
  rewrite closedSorted_Permutation.
  by rewrite list_elem_of_In, filter_In, <- list_elem_of_In.
Qed.

(** X5.  [largestWin] is never below 0 and [largestLoss] never above 0; no
    CLOSED trade has a PnL above [largestWin] or below [largestLoss]; and
    each of the two is either 0 or the PnL of a CLOSED trade, a winning one
    for [largestWin] and a non-winning one for [largestLoss].  This holds
    for every input, infinite and [NaN] PnL included. *)
Theorem largestWin_largestLoss_extremes (trades : list Trade) (B : num) :
  let m := calculateMetrics trades B in
  ltb (largestWin m) zero = false
  /\ ltb zero (largestLoss m) = false
  /\ (forall t, t ∈ trades -> isClosed t = true ->
        gtb (netPnL t) (largestWin m) = false
        /\ ltb (netPnL t) (largestLoss m) = false)
  /\ (largestWin m = zero
      \/ exists t, t ∈ trades /\ isClosed t = true /\ isWin t = true
                   /\ netPnL t = largestWin m)
  /\ (largestLoss m = zero
      \/ exists t, t ∈ trades /\ isClosed t = true /\ isWin t = false
                   /\ netPnL t = largestLoss m).
Proof.
  intros m. unfold m, calculateMetrics, metricsOf.
  cbn [largestWin largestLoss metricsFinish].
  destruct (fold_metricsStep_largestWin (closedSorted trades) B)
    as (HW0 & HWall & HWsrc).
  destruct (fold_metricsStep_largestLoss (closedSorted trades) B)
    as (HL0 & HLall & HLsrc).
  rewrite Forall_forall in HWall, HLall.
  split; [done|]. split; [done|]. split; [|split].
  - intros t Ht Hc.
    assert (t ∈ closedSorted trades) by (by apply closedSorted_elem).
    split; [by apply HWall|by apply HLall].
  - destruct HWsrc as [?|(t & Ht & ? & ?)]; [by left|].
    apply closedSorted_elem in Ht as [? ?]. right. by exists t.
  - destruct HLsrc as [?|(t & Ht & ? & ?)]; [by left|].
    apply closedSorted_elem in Ht as [? ?]. right. by exists t.
Qed.

(** ** calculateMetrics: sums over finite PnL *)

Lemma metricsStep_grossProfit (s : MetricsAcc) (t : Trade) :
  grossProfit (metricsStep s t)
  = if isWin t then add (grossProfit s) (netPnL t) else grossProfit s.
Proof. unfold metricsStep, isWin. by destruct (gtb (netPnL t) zero). Qed.

Lemma metricsStep_grossLoss (s : MetricsAcc) (t : Trade) :
  grossLoss (metricsStep s t)
  = if isWin t then grossLoss s else add (grossLoss s) (abs (netPnL t)).
Proof. unfold metricsStep, isWin. by destruct (gtb (netPnL t) zero). Qed.

Lemma sumQ_snoc (l : list Qc) (x : Qc) : sumQ (l ++ [x]) = (sumQ l + x)%Qc.
Proof.
  induction l as [|y l IH]; simpl; [ring|]. rewrite IH. ring.
Qed.

Lemma finitePnL_Fin (t : Trade) : finitePnL t -> netPnL t = Fin (pnlQ t).
Proof. unfold finitePnL, pnlQ. by destruct (netPnL t). Qed.

Lemma isWin_pos (t : Trade) :
  finitePnL t -> isWin t = true <-> (0 < pnlQ t)%Qc.
Proof.
  intros Hf. unfold isWin, gtb. rewrite (finitePnL_Fin t Hf).
  unfold zero, ofZ. by rewrite ltb_Fin, Z2Qc_inj_0.
Qed.

Lemma isWin_nonpos (t : Trade) :
  finitePnL t -> isWin t = false <-> (pnlQ t <= 0)%Qc.
Proof.
  intros Hf. unfold isWin, gtb. rewrite (finitePnL_Fin t Hf).
  unfold zero, ofZ. by rewrite ltb_Fin_false, Z2Qc_inj_0.
Qed.

Lemma abs_nonpos (q : Qc) : (q <= 0)%Qc -> abs (Fin q) = Fin (- q).
Proof.
  intros Hq. unfold abs. destruct (sgn q) eqn:Hs; [|done|].
  - apply Qceq_alt in Hs. rewrite Hs. f_equal; try ring; done.
  - apply sgn_Gt in Hs. exfalso. exact (proj1 (Qcle_ngt q 0) Hq Hs).
Qed.

(** The three running sums of the loop, for finite inputs. *)
Lemma fold_metricsStep_sums (l : list Trade) (b : Qc) :
  Forall finitePnL l ->
  let s := fold_left metricsStep l (metricsInit (Fin b)) in
  currentEquity s = Fin (b + sumQ (map pnlQ l))
  /\ grossProfit s = Fin (sumQ (map pnlQ (List.filter isWin l)))
  /\ grossLoss s = Fin (- sumQ (map pnlQ (List.filter isLoss l))).
Proof.
  induction l as [|t l IH] using rev_ind; intros Hfin; cbn zeta.
  { simpl. unfold zero, ofZ. rewrite Z2Qc_inj_0.
    split; [f_equal; ring|]. split; [done|]. f_equal; try ring; done. }
  apply Forall_app in Hfin as [Hfin Ht]. apply Forall_cons in Ht as [Ht _].
  destruct (IH Hfin) as (Hc & Hp & Hl).
  rewrite fold_left_snoc, metricsStep_equity, metricsStep_grossProfit,
    metricsStep_grossLoss, Hc, Hp, Hl, !List.filter_app, !map_app.
  cbn [List.filter map]. replace (isLoss t) with (negb (isWin t)) by done.
  rewrite (finitePnL_Fin t Ht). destruct (isWin t) eqn:Hw; cbn [negb map].
  - rewrite !sumQ_snoc, app_nil_r. simpl.
    split; [f_equal; ring|]. done.
  - apply (isWin_nonpos t Ht) in Hw.
    rewrite !sumQ_snoc, app_nil_r, (abs_nonpos _ Hw). simpl.
    split; [f_equal; ring|]. split; [done|]. f_equal. ring.
Qed.

Lemma sumQ_nonneg (l : list Qc) :
  Forall (fun q => (0 <= q)%Qc) l -> (0 <= sumQ l)%Qc.
Proof.
  induction 1 as [|q l Hq _ IH]; simpl; [done|].
  by apply Qcplus_nonneg_nonneg.
Qed.

Lemma sumQ_pos (l : list Qc) :
  Forall (fun q => (0 < q)%Qc) l -> l <> [] -> (0 < sumQ l)%Qc.
Proof.
  intros Hall Hne. destruct Hall as [|q l Hq Hl]; [done|]. simpl.
  apply Qcplus_pos_nonneg; [done|]. apply sumQ_nonneg.
  eapply Forall_impl; [exact Hl|]. intros ?. apply Qclt_le_weak.
Qed.

Lemma sumQ_partition (p : Trade -> bool) (l : list Trade) :
  sumQ (map pnlQ l)
  = (sumQ (map pnlQ (List.filter p l))
     + sumQ (map pnlQ (List.filter (fun t => negb (p t)) l)))%Qc.
Proof.
  induction l as [|t l IH]; simpl; [ring|].
  rewrite IH. destruct (p t); simpl; ring.
Qed.

Lemma sum_wins_pos (l : list Trade) :
  Forall finitePnL l -> List.filter isWin l <> [] ->
  (0 < sumQ (map pnlQ (List.filter isWin l)))%Qc.
Proof.
  intros Hfin Hne. apply sumQ_pos.
  - apply Forall_map, Forall_forall.
    intros t Ht. apply list_elem_of_In, filter_In in Ht as [Ht Hw].
    apply list_elem_of_In in Ht. rewrite Forall_forall in Hfin.
    by apply (isWin_pos t (Hfin t Ht)).
  - intros H. by apply map_eq_nil in H.
Qed.

(** No trade with a negative PnL: the losses add up to 0. *)
Lemma sum_losses_zero (l : list Trade) :
  Forall finitePnL l -> Forall (fun t => isNegative t = false) l ->
  sumQ (map pnlQ (List.filter isLoss l)) = 0%Qc.
Proof.
  intros Hfin Hneg. induction Hfin as [|t l Ht _ IH]; simpl; [done|].
  apply Forall_cons in Hneg as [Hn Hneg]. specialize (IH Hneg).
  unfold isLoss at 1. destruct (isWin t) eqn:Hw; simpl; [done|].
  apply (isWin_nonpos t Ht) in Hw.
  unfold isNegative in Hn. rewrite (finitePnL_Fin t Ht) in Hn.
  unfold zero, ofZ in Hn. rewrite Z2Qc_inj_0 in Hn.
  apply ltb_Fin_false in Hn. rewrite IH.
  replace (pnlQ t) with 0%Qc by (by apply Qcle_antisym). ring.
Qed.

(** The counters and the gross sums do not look at the balance. *)
Lemma fold_metricsStep_balance_free (l : list Trade) (B B' : num) :
  let s := fold_left metricsStep l (metricsInit B) in
  let s' := fold_left metricsStep l (metricsInit B') in
  wins s = wins s' /\ grossProfit s = grossProfit s'
  /\ grossLoss s = grossLoss s'.
Proof.
  induction l as [|t l IH] using rev_ind; [done|]. cbn zeta in *.
  destruct IH as (Hw & Hp & Hl).
  rewrite !fold_left_snoc, !metricsStep_wins, !metricsStep_grossProfit,
    !metricsStep_grossLoss, Hw, Hp, Hl. done.
Qed.

(** The gross sums of calculateMetrics on finite PnL, as rationals. *)
Lemma calculateMetrics_gross (l : list Trade) (B : num) :
  Forall finitePnL l ->
  let s := fold_left metricsStep l (metricsInit B) in
  wins s = Z.of_nat (length (List.filter isWin l))
  /\ grossProfit s = Fin (sumQ (map pnlQ (List.filter isWin l)))
  /\ grossLoss s = Fin (- sumQ (map pnlQ (List.filter isLoss l))).
Proof.
  intros Hfin. cbn zeta.
  destruct (fold_metricsStep_balance_free l B (Fin 0)) as (Hw & Hp & Hl).
  destruct (fold_metricsStep_sums l 0 Hfin) as (_ & Hp' & Hl').
  rewrite Hp, Hl, Hp', Hl', fold_metricsStep_wins. by split.
Qed.

Lemma gtb_zero_iff (q : Qc) : gtb (Fin q) zero = true <-> (0 < q)%Qc.
Proof. unfold gtb, zero, ofZ. by rewrite ltb_Fin, Z2Qc_inj_0. Qed.

Lemma gtb_zero_false_iff (q : Qc) : gtb (Fin q) zero = false <-> (q <= 0)%Qc.
Proof. unfold gtb, zero, ofZ. by rewrite ltb_Fin_false, Z2Qc_inj_0. Qed.

Lemma div_Fin_pos (x y : Qc) : (0 < y)%Qc -> div (Fin x) (Fin y) = Fin (x / y).
Proof. intros Hy. apply sgn_Gt in Hy. unfold div. by rewrite Hy. Qed.

Lemma filter_nil_iff {A : Type} (p : A -> bool) (l : list A) :
  List.filter p l = [] <-> Forall (fun x => p x = false) l.
Proof.
  rewrite <- length_filter_none. split; [by intros ->|].
  by destruct (List.filter p l).
Qed.

Lemma closedSorted_Forall_iff (P : Trade -> Prop) (trades : list Trade) :
  Forall P (closedSorted trades)
  <-> forall t, t ∈ trades -> isClosed t = true -> P t.
Proof.
  rewrite Forall_forall. split.
  - intros H t Ht Hc. apply H. by apply closedSorted_elem.
  - intros H t Ht. apply closedSorted_elem in Ht as [? ?]. by apply H.
Qed.

(** X6.  For CLOSED trades with finite PnL, [profitFactor] is the
    sentinel 999 when some CLOSED trade wins and none has a negative PnL,
    and 0 when no CLOSED trade wins. *)
Theorem profitFactor_cases (trades : list Trade) (B : num) :
  (forall t, t ∈ trades -> isClosed t = true -> finitePnL t) ->
  let m := calculateMetrics trades B in
  ((forall t, t ∈ trades -> isClosed t = true -> isNegative t = false) ->
   (exists t, t ∈ trades /\ isClosed t = true /\ isWin t = true) ->
   profitFactor m = ofZ 999)
  /\ ((forall t, t ∈ trades -> isClosed t = true -> isWin t = false) ->
      profitFactor m = zero).
Proof.
  intros Hfin m. unfold m, calculateMetrics, metricsOf.
  cbn [profitFactor metricsFinish].
  apply closedSorted_Forall_iff in Hfin.
  destruct (calculateMetrics_gross (closedSorted trades) B Hfin)
    as (_ & Hp & Hl).
  rewrite Hp, Hl. clear Hp Hl.
  set (P := sumQ (map pnlQ (List.filter isWin (closedSorted trades)))) in *.
  set (G := (- sumQ (map pnlQ (List.filter isLoss (closedSorted trades))))%Qc)
    in *.
  split.
  - intros Hneg (t & Ht & Hc & Hw).
    apply closedSorted_Forall_iff in Hneg.
    assert (HG0 : G = 0%Qc).
    { unfold G. rewrite (sum_losses_zero _ Hfin Hneg). ring. }
    assert (HP0 : (0 < P)%Qc).
    { apply sum_wins_pos; [done|]. intros Hnil.
      apply filter_nil_iff in Hnil. rewrite Forall_forall in Hnil.
      rewrite (Hnil t) in Hw; [done|]. by apply closedSorted_elem. }
    rewrite (proj2 (gtb_zero_false_iff G)) by (rewrite HG0; apply Qcle_refl).
    by rewrite (proj2 (gtb_zero_iff P) HP0).
  - intros Hnw. apply closedSorted_Forall_iff in Hnw.
    apply filter_nil_iff in Hnw.
    assert (HP0 : P = 0%Qc) by (unfold P; by rewrite Hnw).
    rewrite (proj2 (gtb_zero_false_iff P)) by (rewrite HP0; apply Qcle_refl).
    destruct (gtb (Fin G) zero) eqn:HgG; [|done].
    apply gtb_zero_iff in HgG. rewrite (div_Fin_pos P G HgG), HP0.
    unfold zero, ofZ. rewrite Z2Qc_inj_0. f_equal. field.
    intros H0. rewrite H0 in HgG. by apply (Qclt_not_eq 0 0).
Qed.

(** Two winners and a trade that breaks even: the sentinel. *)
Lemma profitFactor_cases_witness :
  profitFactor (calculateMetrics
    [closedTrade "a" 0 (Some 1000) 100; closedTrade "b" 0 (Some 2000) 0;
     closedTrade "c" 0 (Some 3000) 50] (ofZ 10000)) = ofZ 999.
Proof.
  apply (proj1 (profitFactor_cases
    [closedTrade "a" 0 (Some 1000) 100; closedTrade "b" 0 (Some 2000) 0;
     closedTrade "c" 0 (Some 3000) 50] (ofZ 10000)
    ltac:(intros t Ht _;
          repeat (apply elem_of_cons in Ht as [->|Ht]; [done|]);
          by apply elem_of_nil in Ht))).
  - intros t Ht _.
    repeat (apply elem_of_cons in Ht as [->|Ht]; [done|]).
    by apply elem_of_nil in Ht.
  - exists (closedTrade "a" 0 (Some 1000) 100). split; [by left|done].
Defined.

Lemma length_win_loss (l : list Trade) :
  Z.of_nat (length l) - Z.of_nat (length (List.filter isWin l))
  = Z.of_nat (length (List.filter isLoss l)).
Proof.
  induction l as [|t l IH]; simpl; [done|].
  unfold isLoss at 1. destruct (isWin t); simpl; lia.
Qed.

(** The algebra of the expectancy formula: win share times average win
    minus loss share times average loss is the mean. *)
Lemma expectancy_algebra (P G : Qc) (w l : nat) :
  (w = 0%nat -> P = 0%Qc) -> (l = 0%nat -> G = 0%Qc) -> (0 < w + l)%nat ->
  let N := Qc_of_Z (Z.of_nat (w + l)) in
  let W := Qc_of_Z (Z.of_nat w) in
  let L := Qc_of_Z (Z.of_nat l) in
  (W / N * (if 0 <? Z.of_nat w then P / W else 0)
   - L / N * (if 0 <? Z.of_nat l then G / L else 0))%Qc
  = ((P - G) / N)%Qc.
Proof.
  intros HP HG Hn N W L.
  assert (HN : N <> 0%Qc) by (apply Qc_of_Z_nonzero; lia).
  destruct w as [|w], l as [|l]; try lia.
  - rewrite (HP eq_refl).
    assert (HL : L <> 0%Qc) by (apply Qc_of_Z_nonzero; lia).
    change (0 <? Z.of_nat 0) with false.
    replace (0 <? Z.of_nat (S l)) with true by (symmetry; apply Z.ltb_lt; lia).
    unfold W. change (Z.of_nat 0) with 0. rewrite Z2Qc_inj_0. by field.
  - rewrite (HG eq_refl).
    assert (HW : W <> 0%Qc) by (apply Qc_of_Z_nonzero; lia).
    change (0 <? Z.of_nat 0) with false.
    replace (0 <? Z.of_nat (S w)) with true by (symmetry; apply Z.ltb_lt; lia).
    unfold L. change (Z.of_nat 0) with 0. rewrite Z2Qc_inj_0. by field.
  - assert (HW : W <> 0%Qc) by (apply Qc_of_Z_nonzero; lia).
    assert (HL : L <> 0%Qc) by (apply Qc_of_Z_nonzero; lia).
    replace (0 <? Z.of_nat (S w)) with true by (symmetry; apply Z.ltb_lt; lia).
    replace (0 <? Z.of_nat (S l)) with true by (symmetry; apply Z.ltb_lt; lia).
    by field.
Qed.

Lemma average_Fin (P : Qc) (k : Z) :
  (if 0 <? k then div (Fin P) (ofZ k) else zero)
  = Fin (if 0 <? k then P / Qc_of_Z k else 0)%Qc.
Proof.
  destruct (Z.ltb_spec 0 k) as [Hk|Hk].
  - unfold ofZ. apply div_Fin_pos. by apply (Z2Qc_inj_lt 0 k).
  - unfold zero, ofZ. by rewrite Z2Qc_inj_0.
Qed.

(** The expectancy formula on a non-empty list of finite PnL, whatever
    the balance. *)
Lemma metricsOf_expectancy (l : list Trade) (B : num) :
  Forall finitePnL l -> l <> [] ->
  expectancy (metricsOf l B)
  = Fin (sumQ (map pnlQ l) / Qc_of_Z (Z.of_nat (length l))).
Proof.
  intros Hfin Hne. unfold metricsOf. cbn [expectancy metricsFinish].
  destruct (calculateMetrics_gross l B Hfin) as (Hw & Hp & Hl).
  rewrite Hw, Hp, Hl, length_win_loss.
  rewrite (sumQ_partition isWin l). fold isLoss.
  set (lw := length (List.filter isWin l)).
  set (ll := length (List.filter isLoss l)).
  set (P := sumQ (map pnlQ (List.filter isWin l))).
  set (S := sumQ (map pnlQ (List.filter isLoss l))).
  assert (Hlen : Z.of_nat (length l) = Z.of_nat (lw + ll)).
  { pose proof (length_win_loss l). unfold lw, ll. lia. }
  assert (Hpos : 0 < Z.of_nat (length l)) by (destruct l; simpl; [done|lia]).
  rewrite (proj2 (Z.ltb_lt _ _) Hpos), !average_Fin,
    !(div_ofZ_pos _ _ Hpos), Hlen.
  unfold sub. simpl. f_equal.
  replace (P + S)%Qc with (P - - S)%Qc by ring.
  apply (expectancy_algebra P (- S) lw ll).
  - intros H0. unfold P, lw in *. by destruct (List.filter isWin l).
  - intros H0. unfold S, ll in *.
    destruct (List.filter isLoss l); [simpl; ring|done].
  - lia.
Qed.

(** ** calculateMetrics: drawdown *)

Lemma metricsStep_maxDD (s : MetricsAcc) (t : Trade) :
  maxDD (metricsStep s t)
  = let cur := add (currentEquity s) (netPnL t) in
    let dd := sub (nextPeak cur (maxEquity s)) cur in
    if gtb dd (maxDD s) then dd else maxDD s.
Proof. unfold metricsStep. by destruct (gtb (netPnL t) zero). Qed.

Lemma sub_Fin (x y : Qc) : sub (Fin x) (Fin y) = Fin (x - y).
Proof. reflexivity. Qed.

Lemma ddPercentOf_at_peak (c : Qc) :
  gtb (ddPercentOf (Fin c) (Fin c)) zero = false.
Proof.
  unfold ddPercentOf. rewrite sub_Fin.
  replace (c - c)%Qc with 0%Qc by ring. unfold div.
  destruct (sgn c); try done; unfold mul, ofZ; apply gtb_zero_false_iff;
    (replace (0 / c * Qc_of_Z 100)%Qc with 0%Qc; [apply Qcle_refl|]);
    unfold Qcdiv; ring.
Qed.

(** When every trade wins, the balance is the peak after each trade and no
    drawdown is ever recorded. *)
Lemma fold_metricsStep_winners (l : list Trade) (b : Qc) :
  Forall finitePnL l -> Forall (fun t => isWin t = true) l ->
  let s := fold_left metricsStep l (metricsInit (Fin b)) in
  (exists x, currentEquity s = Fin x /\ maxEquity s = Fin x)
  /\ maxDD s = zero /\ maxDDPercent s = zero.
Proof.
  induction l as [|t l IH] using rev_ind; intros Hfin Hwin; cbn zeta.
  { split; [by exists b|done]. }
  apply Forall_app in Hfin as [Hfin Ht]. apply Forall_cons in Ht as [Ht _].
  apply Forall_app in Hwin as [Hwin Hw]. apply Forall_cons in Hw as [Hw _].
  destruct (IH Hfin Hwin) as ((x & Hx & Hp) & Hd & Hdp).
  rewrite fold_left_snoc, metricsStep_equity, metricsStep_peak,
    metricsStep_maxDD, metricsStep_maxDDPercent, Hx, Hp, Hd, Hdp,
    (finitePnL_Fin t Ht). cbn zeta.
  change (add (Fin x) (Fin (pnlQ t))) with (Fin (x + pnlQ t)).
  apply (isWin_pos t Ht) in Hw.
  assert (Hpk : nextPeak (Fin (x + pnlQ t)) (Fin x) = Fin (x + pnlQ t)).
  { unfold nextPeak, gtb.
    rewrite (proj2 (ltb_Fin x (x + pnlQ t))); [done|].
    rewrite <- (Qcplus_0_r x) at 1. by apply Qcplus_lt_mono_l. }
  rewrite Hpk, ddPercentOf_at_peak, sub_Fin.
  replace (x + pnlQ t - (x + pnlQ t))%Qc with 0%Qc by ring.
  rewrite (proj2 (gtb_zero_false_iff 0)) by apply Qcle_refl.
  split; [by eexists|done].
Qed.

(** X9.  For a finite starting balance, zero and negative ones included,
    and CLOSED trades with finite PnL: when every CLOSED trade wins,
    [maxDrawdown] and [maxDrawdownPercent] are both 0. *)
Theorem maxDrawdown_zero_for_winners (trades : list Trade) (b : Qc) :
  (forall t, t ∈ trades -> isClosed t = true -> finitePnL t) ->
  (forall t, t ∈ trades -> isClosed t = true -> isWin t = true) ->
  maxDrawdown (calculateMetrics trades (Fin b)) = zero
  /\ maxDrawdownPercent (calculateMetrics trades (Fin b)) = zero.
Proof.
  intros Hfin Hwin. unfold calculateMetrics, metricsOf.
  cbn [maxDrawdown maxDrawdownPercent metricsFinish].
  apply closedSorted_Forall_iff in Hfin.
  apply closedSorted_Forall_iff in Hwin.
  by destruct (fold_metricsStep_winners _ b Hfin Hwin) as (_ & ? & ?).
Qed.

(** Two winners on a starting balance of 0. *)
Lemma maxDrawdown_zero_for_winners_witness :
  maxDrawdown (calculateMetrics
     [closedTrade "a" 0 (Some 1000) 100; closedTrade "b" 0 (Some 2000) 50]
     (Fin 0)) = zero
  /\ maxDrawdownPercent (calculateMetrics
     [closedTrade "a" 0 (Some 1000) 100; closedTrade "b" 0 (Some 2000) 50]
     (Fin 0)) = zero.
Proof.
  apply (maxDrawdown_zero_for_winners
     [closedTrade "a" 0 (Some 1000) 100; closedTrade "b" 0 (Some 2000) 50] 0).
  - intros t Ht _.
    repeat (apply elem_of_cons in Ht as [->|Ht]; [done|]).
    by apply elem_of_nil in Ht.
  - intros t Ht _.
    repeat (apply elem_of_cons in Ht as [->|Ht]; [done|]).
    by apply elem_of_nil in Ht.
Defined.

(** ** generateEquityCurve: values on the curve *)

Lemma fold_curveStep_equity (h : Host) (l : list Trade) (c : CurveAcc) :
  map equity (curve (fold_left (curveStep h) l c))
  = map equity (curve c)
    ++ map toFixed2 (balancesFrom (currentBalance c) (map netPnL l)).
Proof.
  revert c. induction l as [|t l IH]; intros c; simpl.
  - by rewrite app_nil_r.
  - rewrite IH. unfold curveStep. cbn [curve currentBalance].
    rewrite map_app. cbn [map equity]. by rewrite <- app_assoc.
Qed.

Lemma last_cons_default {A : Type} (x d : A) (l : list A) :
  List.last (x :: l) d = List.last l x.
Proof.
  revert x d. induction l as [|y l IH]; intros x d; [done|].
  change (List.last (x :: y :: l) d) with (List.last (y :: l) d).
  by rewrite !IH.
Qed.

Lemma fold_metricsStep_balance (l : list Trade) (s : MetricsAcc) :
  currentEquity (fold_left metricsStep l s)
  = List.last (balancesFrom (currentEquity s) (map netPnL l))
      (currentEquity s).
Proof.
  revert s. induction l as [|t l IH]; intros s; [done|].
  cbn [fold_left map balancesFrom].
  by rewrite IH, metricsStep_equity, last_cons_default.
Qed.

(** X11.  The equity values of the curve are the starting balance followed
    by the running balance after each CLOSED trade in exit order, each
    rounded to two decimals; [netProfit] of calculateMetrics is the last of
    these running balances, unrounded, minus the starting balance. *)
Theorem equity_curve_running_balance (h : Host) (now : Z)
    (trades : list Trade) (B : num) :
  let balances := balancesFrom B (map netPnL (closedSorted trades)) in
  map equity (generateEquityCurve h now trades B)
  = B :: map toFixed2 balances
  /\ netProfit (calculateMetrics trades B) = sub (List.last balances B) B.
Proof.
  cbn zeta. split.
  - unfold generateEquityCurve, curveOf. by rewrite fold_curveStep_equity.
  - unfold calculateMetrics, metricsOf. cbn [netProfit metricsFinish].
    by rewrite fold_metricsStep_balance.
Qed.

(** ** Sorting in descending order *)

Lemma sortBy_ext {A : Type} (cmp cmp' : A -> A -> Z) (l : list A) :
  (forall a b, cmp a b = cmp' a b) -> sortBy cmp l = sortBy cmp' l.
Proof.
  intros Hext. induction l as [|x l IH]; [done|]. rewrite !sortBy_cons, IH.
  clear IH. induction (sortBy cmp' l) as [|y s IHs]; simpl; [done|].
  by rewrite Hext, IHs.
Qed.

Lemma sortBy_desc_as_asc {A : Type} (key : A -> Z) (l : list A) :
  sortBy (descBy key) l = sortBy (ascBy (fun a => - key a)) l.
Proof. apply sortBy_ext. intros a b. unfold descBy, ascBy. lia. Qed.

Lemma NoDup_map_opp {A : Type} (key : A -> Z) (l : list A) :
  NoDup (map key l) -> NoDup (map (fun a => - key a) l).
Proof.
  induction l as [|x l IH]; simpl; intros H; [constructor|].
  apply NoDup_cons in H as [Hx Hl]. apply NoDup_cons. split; [|by apply IH].
  intros Hin. apply Hx. apply list_elem_of_In, in_map_iff in Hin
    as (y & Hy & Hin).
  apply list_elem_of_In, in_map_iff. exists y. split; [lia|done].
Qed.

Lemma sortBy_desc_unique {A : Type} (key : A -> Z) (l1 l2 : list A) :
  l1 ≡ₚ l2 -> NoDup (map key l1) ->
  sortBy (descBy key) l1 = sortBy (descBy key) l2.
Proof.
  intros Hp Hnd. rewrite !sortBy_desc_as_asc.
  apply sortBy_asc_unique; [done|]. by apply NoDup_map_opp.
Qed.

Lemma sortBy_desc_strongly_sorted {A : Type} (key : A -> Z) (l : list A) :
  StronglySorted (fun a b => key b <= key a) (sortBy (descBy key) l).
Proof.
  rewrite sortBy_desc_as_asc.
  pose proof (sortBy_asc_strongly_sorted (fun a => - key a) l) as Hs.
  induction Hs as [|x s _ IH Hx]; constructor; [done|].
  eapply Forall_impl; [exact Hx|]. intros y. unfold keyLe. lia.
Qed.

(** ** getTradeViolations: the session windows *)

Lemma hour_of_day (ms : Z) :
  (ms `div` 3600000) `mod` 24 = (ms `mod` 86400000) `div` 3600000.
Proof. Z.div_mod_to_equations. lia. Qed.

Lemma getUTCHours_valid (ms : Z) :
  validDate ms -> getUTCHours ms = Some (msOfDay ms `div` 3600000).
Proof.
  unfold validDate, getUTCHours, msOfDay. intros H.
  apply Z.leb_le in H. by rewrite H, hour_of_day.
Qed.

Lemma getUTCHours_invalid (ms : Z) : ~ validDate ms -> getUTCHours ms = None.
Proof.
  unfold validDate, getUTCHours. intros H.
  destruct (Z.leb_spec (Z.abs ms) 8640000000000000); [done|done].
Qed.

Lemma msOfDay_range (ms : Z) : 0 <= msOfDay ms < 86400000.
Proof. unfold msOfDay. apply Z.mod_pos_bound. lia. Qed.

Lemma hourLt_ms (d k : Z) :
  0 <= d -> hourLt (Some (d `div` 3600000)) k = true <-> d < k * 3600000.
Proof.
  intros Hd. unfold hourLt. rewrite Z.ltb_lt. Z.div_mod_to_equations. lia.
Qed.

Lemma hourGe_ms (d k : Z) :
  0 <= d -> hourGe (Some (d `div` 3600000)) k = true <-> k * 3600000 <= d.
Proof.
  intros Hd. unfold hourGe. rewrite Z.leb_le. Z.div_mod_to_equations. lia.
Qed.

(** X12.  For a valid entry date the session check depends only on the
    time elapsed since UTC midnight: a LONDON trade passes from 07:00:00.000
    up to but not including 17:00, an NY trade from 12:00 up to 22:00, an
    ASIA trade from 22:00 up to 09:00 of the next day, and an OVERLAP trade
    always passes.  Every instant of the day lies in at least one of the
    three windows. *)
Theorem sessionChecks_time_of_day (t : Trade) :
  validDate (entryDate t) ->
  let d := msOfDay (entryDate t) in
  match session t with
  | LONDON => sessionChecks t = [] <-> 7 * 3600000 <= d < 17 * 3600000
  | NY => sessionChecks t = [] <-> 12 * 3600000 <= d < 22 * 3600000
  | ASIA => sessionChecks t = [] <-> d < 9 * 3600000 \/ 22 * 3600000 <= d
  | OVERLAP => sessionChecks t = []
  end
  /\ (7 * 3600000 <= d < 17 * 3600000
      \/ 12 * 3600000 <= d < 22 * 3600000
      \/ d < 9 * 3600000 \/ 22 * 3600000 <= d).
Proof.
  intros Hv d. split; [|lia].
  pose proof (msOfDay_range (entryDate t)) as [Hd _]. fold d in Hd.
  unfold sessionChecks. rewrite (getUTCHours_valid _ Hv). fold d.
  destruct (session t); [| | |done].
  - pose proof (hourGe_ms d 22 Hd) as Hge. pose proof (hourLt_ms d 9 Hd) as Hlt.
    destruct (hourGe _ 22), (hourLt _ 9); simpl; split; intros H;
      try done; try lia; exfalso; intuition (try discriminate; lia).
  - pose proof (hourGe_ms d 17 Hd) as Hge. pose proof (hourLt_ms d 7 Hd) as Hlt.
    destruct (hourLt _ 7), (hourGe _ 17); simpl; split; intros H;
      try done; try lia; exfalso; intuition (try discriminate; lia).
  - pose proof (hourGe_ms d 22 Hd) as Hge.
    pose proof (hourLt_ms d 12 Hd) as Hlt.
    destruct (hourLt _ 12), (hourGe _ 22); simpl; split; intros H;
      try done; try lia; exfalso; intuition (try discriminate; lia).
Qed.

(** A LONDON trade entered at 16:59:59.999 UTC on the first day. *)
Lemma sessionChecks_time_of_day_witness :
  sessionChecks
    {| id := "x"; entryDate := 17 * 3600000 - 1; exitDate := None;
       netPnL := zero; riskAmount := zero; session := LONDON;
       status := OPEN |} = [].
Proof.
  apply (proj1 (sessionChecks_time_of_day
    {| id := "x"; entryDate := 17 * 3600000 - 1; exitDate := None;
       netPnL := zero; riskAmount := zero; session := LONDON;
       status := OPEN |} ltac:(by vm_compute))).
  by vm_compute.
Defined.

(** X13.  An entry time stamp outside the range of valid dates makes the
    hour [NaN]: the LONDON and NY checks, written as "outside if before or
    after", then pass, while the ASIA check, written as "outside if not
    inside", reports a violation. *)
Theorem sessionChecks_invalid_date (t : Trade) :
  ~ validDate (entryDate t) ->
  sessionChecks t
  = match session t with
    | ASIA => ["Trade executed outside Asia session"]
    | _ => []
    end.
Proof.
  intros Hv. unfold sessionChecks. rewrite (getUTCHours_invalid _ Hv).
  by destruct (session t).
Qed.

(** A time stamp one millisecond past the last valid date. *)
Lemma sessionChecks_invalid_date_witness :
  sessionChecks
    {| id := "x"; entryDate := 8640000000000001; exitDate := None;
       netPnL := zero; riskAmount := zero; session := ASIA;
       status := OPEN |}
  = ["Trade executed outside Asia session"].
Proof.
  apply (sessionChecks_invalid_date
    {| id := "x"; entryDate := 8640000000000001; exitDate := None;
       netPnL := zero; riskAmount := zero; session := ASIA;
       status := OPEN |}).
  unfold validDate. simpl. lia.
Defined.

(** ** getTradeViolations: which trades matter to the revenge check *)

(** X14.  Trades that do not precede the examined trade -- the trade
    itself or any trade with its id, trades without exit date or with exit
    date 0, trades that exit after the examined entry -- have no influence
    on the violations, wherever they stand in [allTrades]. *)
Theorem violations_ignore_non_preceding (h : Host) (trade : Trade)
    (l1 extra l2 : list Trade) (profile : option UserProfile) :
  Forall (fun t => ~ precedes trade t) extra ->
  getTradeViolations h trade (l1 ++ extra ++ l2) profile
  = getTradeViolations h trade (l1 ++ l2) profile.
Proof.
  intros Hex. unfold getTradeViolations, previousTrades.
  rewrite !List.filter_app.
  assert (Hnil : List.filter (isPrevious trade) extra = []).
  { apply filter_nil_iff. eapply Forall_impl; [exact Hex|].
    intros t Ht. destruct (isPrevious trade t) eqn:Hp; [|done].
    by apply isPrevious_precedes in Hp. }
  by rewrite Hnil.
Qed.

(** The examined trade itself and a trade that is still open, put between
    a recent loss and an older win. *)
Lemma violations_ignore_non_preceding_witness :
  getTradeViolations sampleHost examined
    ([closedTrade "c" 0 (Some 1000) (-100)]
     ++ [examined; closedTrade "o" 0 None 70]
     ++ [closedTrade "d" 0 (Some 500) 30]) None
  = getTradeViolations sampleHost examined
      ([closedTrade "c" 0 (Some 1000) (-100)]
       ++ [closedTrade "d" 0 (Some 500) 30]) None.
Proof.
  apply (violations_ignore_non_preceding sampleHost examined
           [closedTrade "c" 0 (Some 1000) (-100)]
           [examined; closedTrade "o" 0 None 70]
           [closedTrade "d" 0 (Some 500) 30] None).
  repeat constructor.
  - intros [Hid _]. by apply Hid.
  - intros (_ & e & He & _). discriminate He.
Defined.

(** X15.  When the trades that precede the examined trade have pairwise
    distinct exit dates, the violations do not depend on the order of
    [allTrades]. *)
Theorem violations_order_independent (h : Host) (trade : Trade)
    (allTrades allTrades' : list Trade) (profile : option UserProfile) :
  allTrades ≡ₚ allTrades' ->
  NoDup (map exitOr0 (List.filter (isPrevious trade) allTrades)) ->
  getTradeViolations h trade allTrades profile
  = getTradeViolations h trade allTrades' profile.
Proof.
  intros Hp Hnd. unfold getTradeViolations, previousTrades.
  do 3 f_equal.
  apply (sortBy_desc_unique exitOr0); [|done]. by apply filter_Permutation.
Qed.

(** A loss and a later win before the examined trade, in both orders. *)
Lemma violations_order_independent_witness :
  getTradeViolations sampleHost examined
    [closedTrade "c" 0 (Some 1000) (-100); closedTrade "d" 0 (Some 2000) 30]
    None
  = getTradeViolations sampleHost examined
    [closedTrade "d" 0 (Some 2000) 30; closedTrade "c" 0 (Some 1000) (-100)]
    None.
Proof.
  apply (violations_order_independent sampleHost examined
    [closedTrade "c" 0 (Some 1000) (-100); closedTrade "d" 0 (Some 2000) 30]
    [closedTrade "d" 0 (Some 2000) 30; closedTrade "c" 0 (Some 1000) (-100)]
    None).
  - apply Permutation_swap.
  - vm_compute. apply NoDup_cons. split.
    + intros H. apply list_elem_of_singleton in H. discriminate.
    + apply NoDup_singleton.
Defined.

(** ** Dashboard.tsx: recent activity *)

(** X16.  The "Recent Activity" table shows at most five trades, all of
    them when there are fewer, newest entry first; every trade it leaves
    out was entered no later than each trade it shows. *)
Theorem recentTrades_newest_five (trades : list Trade) :
  length (recentTrades trades) = Nat.min 5 (length trades)
  /\ StronglySorted (fun a b => entryDate b <= entryDate a)
       (recentTrades trades)
  /\ exists rest, trades ≡ₚ recentTrades trades ++ rest
       /\ forall a b, a ∈ recentTrades trades -> b ∈ rest ->
                      entryDate b <= entryDate a.
Proof.
  unfold recentTrades.
  pose proof (sortBy_desc_strongly_sorted entryDate trades) as Hs.
  change (sortBy (descBy entryDate) trades)
    with (sortBy byEntryDesc trades) in Hs.
  rewrite <- (take_drop 5 (sortBy byEntryDesc trades)) in Hs.
  apply StronglySorted_app in Hs as (Hcross & Htake & _).
  split; [by rewrite length_take, length_sortBy|]. split; [done|].
  exists (drop 5 (sortBy byEntryDesc trades)). split; [|done].
  by rewrite take_drop, sortBy_Permutation.
Qed.

Lemma recentTradesJS_run (a : nat) (w : World) (l : list Trade) :
  arrays w !! a = Some l ->
  exists r w', recentTradesJS a w = Some (r, w')
    /\ arrays w' !! r = Some (recentTrades l)
    /\ r <> a /\ preserved w w'.
Proof.
  intros Ha. unfold recentTradesJS, bind, Array_spread, Array_sort,
    Array_slice_to. rewrite Ha. cbn [arrays clock].
  set (c := fresh (dom (arrays w))).
  rewrite lookup_insert_eq. cbn [arrays clock].
  rewrite lookup_insert_eq. cbn [arrays clock].
  set (h1 := <[c:=sortBy byEntryDesc l]> (<[c:=l]> (arrays w))).
  set (r := fresh (dom h1)).
  assert (Hc : forall b, is_Some (arrays w !! b) -> c <> b).
  { intros b Hb. by apply fresh_array_unused. }
  assert (Hr : forall b, is_Some (h1 !! b) -> r <> b).
  { intros b Hb Heq. apply (is_fresh (dom h1)). fold r. rewrite Heq.
    by apply elem_of_dom. }
  assert (Hkeep : forall b, is_Some (arrays w !! b) -> h1 !! b = arrays w !! b).
  { intros b Hb. unfold h1. by rewrite !lookup_insert_ne by by apply Hc. }
  eexists r, _. split; [done|]. cbn [arrays clock].
  split; [by rewrite lookup_insert_eq|]. split.
  - apply Hr. rewrite Hkeep; by rewrite Ha.
  - split; [|done]. intros b Hb. cbn [arrays].
    rewrite lookup_insert_ne; [by apply Hkeep|].
    apply Hr. by rewrite Hkeep.
Qed.

(** X17.  Building the "Recent Activity" table leaves the caller's array
    as it is: the sort runs on the copy made by the spread, and the result
    is a third array. *)
Theorem recentTrades_preserves_input (a : nat) (w : World) (l : list Trade) :
  arrays w !! a = Some l ->
  exists r w', recentTradesJS a w = Some (r, w')
    /\ arrays w' !! r = Some (recentTrades l)
    /\ r <> a /\ arrays w' !! a = Some l /\ preserved w w'.
Proof.
  intros Ha.
  destruct (recentTradesJS_run a w l Ha) as (r & w' & Hrun & Hr & Hne & Hw).
  exists r, w'. repeat split; try done; try apply Hw.
  rewrite (proj1 Hw); [done|]. by rewrite Ha.
Qed.

(** The store with one array of two trades. *)
Lemma recentTrades_preserves_input_witness :
  let l := [closedTrade "a" 10 (Some 1000) 7; closedTrade "b" 20 None 5] in
  exists r w', recentTradesJS 0%nat (worldOf l 42) = Some (r, w')
    /\ arrays w' !! r = Some (recentTrades l)
    /\ r <> 0%nat /\ arrays w' !! 0%nat = Some l
    /\ preserved (worldOf l 42) w'.
Proof.
  intros l.
  apply (recentTrades_preserves_input 0%nat (worldOf l 42) l
           (worldOf_lookup l 42)).
Defined.

(** ** Dashboard.tsx: the tiles computed from the metrics *)

Lemma sliceLast_short {A : Type} (n : nat) (l : list A) :
  (length l <= n)%nat -> sliceLast n l = l.
Proof.
  intros H. unfold sliceLast. by replace (length l - n)%nat with 0%nat by lia.
Qed.

Lemma sliceLast_app {A : Type} (older recent : list A) :
  sliceLast (length recent) (older ++ recent) = recent.
Proof.
  unfold sliceLast. rewrite length_app.
  replace (length older + length recent - length recent)%nat
    with (length older) by lia.
  by rewrite drop_app_length.
Qed.

(** X18.  The "Win Rate (Last 20)" tile is computed from the last twenty
    entries of the array as it stands, taken before the CLOSED filter: with
    at most twenty trades it is the overall win rate; with more, older
    entries have no influence; and when none of the last twenty entries is
    CLOSED the tile reads 0, whatever was closed before. *)
Theorem lastTwentyWinRate_window (B : num) :
  (forall trades, (length trades <= 20)%nat ->
     lastTwentyWinRate trades B = winRate (calculateMetrics trades B))
  /\ (forall older recent, length recent = 20%nat ->
        lastTwentyWinRate (older ++ recent) B
        = winRate (calculateMetrics recent B))
  /\ (forall older recent, length recent = 20%nat ->
        Forall (fun t => isClosed t = false) recent ->
        lastTwentyWinRate (older ++ recent) B = zero).
Proof.
  unfold lastTwentyWinRate. split; [|split].
  - intros trades H. by rewrite sliceLast_short.
  - intros older recent H. by rewrite <- H, sliceLast_app.
  - intros older recent H Hopen. rewrite <- H, sliceLast_app.
    apply filter_nil_iff in Hopen. unfold calculateMetrics.
    by rewrite (closedSorted_nil _ Hopen).
Qed.

(** Three trades, fewer than twenty. *)
Lemma lastTwentyWinRate_window_witness :
  lastTwentyWinRate
    [closedTrade "a" 0 (Some 1000) 7; openLoss; pendingWin] zero
  = winRate (calculateMetrics
      [closedTrade "a" 0 (Some 1000) 7; openLoss; pendingWin] zero).
Proof.
  apply (proj1 (lastTwentyWinRate_window zero)). simpl. lia.
Defined.

Lemma sgn_zero : sgn (Qc_of_Z 0) = Eq.
Proof. reflexivity. Qed.

(** X19.  The "Average R" tile, [expectancy / averageLoss || 0]: with no
    CLOSED trade it reads 0, since 0/0 is [NaN] and [NaN || 0] is 0; when
    there are CLOSED trades and every one of them wins (finite PnL), the
    average loss is 0, the expectancy is positive and the tile reads
    [Infinity]. *)
Theorem averageR_edge_cases (trades : list Trade) (B : num) :
  (List.filter isClosed trades = [] ->
   averageR (calculateMetrics trades B) = zero)
  /\ (List.filter isClosed trades <> [] ->
      (forall t, t ∈ trades -> isClosed t = true ->
                 finitePnL t /\ isWin t = true) ->
      averageR (calculateMetrics trades B) = PInf).
Proof.
  unfold calculateMetrics. split.
  - intros Hnil. by rewrite (closedSorted_nil _ Hnil).
  - intros Hne Hall. apply closedSorted_not_nil in Hne.
    assert (Hfin : Forall finitePnL (closedSorted trades)).
    { apply closedSorted_Forall_iff. intros t Ht Hc. by apply Hall. }
    assert (Hwin : Forall (fun t => isWin t = true) (closedSorted trades)).
    { apply closedSorted_Forall_iff. intros t Ht Hc. by apply Hall. }
    set (l := closedSorted trades) in *.
    assert (Hloss : List.filter isLoss l = []).
    { apply filter_nil_iff. eapply Forall_impl; [exact Hwin|].
      intros t Ht. unfold isLoss. by rewrite Ht. }
    assert (Hsum : (0 < sumQ (map pnlQ l))%Qc).
    { apply sumQ_pos; [|intros H; by apply map_eq_nil in H].
      apply Forall_map. rewrite Forall_forall in Hfin, Hwin |- *.
      intros t Ht. by apply (isWin_pos t (Hfin t Ht)), Hwin. }
    unfold averageR. rewrite (metricsOf_expectancy l B Hfin Hne).
    unfold metricsOf. cbn [averageLoss metricsFinish].
    destruct (calculateMetrics_gross l B Hfin) as (Hw & _ & _).
    rewrite Hw, length_win_loss, Hloss.
    change (0 <? Z.of_nat (length (@nil Trade))) with false. cbv iota.
    unfold zero, ofZ, div. rewrite sgn_zero.
    assert (Hpos : (0 < sumQ (map pnlQ l) / Qc_of_Z (Z.of_nat (length l)))%Qc).
    { unfold Qcdiv. apply Qcmult_pos_pos; [done|]. apply Qcinv_pos.
      rewrite <- Z2Qc_inj_0.
      apply (proj1 (Z2Qc_inj_lt 0 (Z.of_nat (length l)))).
      assert (length l <> 0%nat)
        by (intros H0; apply Hne; by apply List.length_zero_iff_nil).
      lia. }
    apply sgn_Gt in Hpos. by rewrite Hpos.
Qed.

(** Two winners and nothing else: the tile reads [Infinity]. *)
Lemma averageR_edge_cases_witness :
  averageR (calculateMetrics
    [closedTrade "a" 0 (Some 1000) 100; closedTrade "b" 0 (Some 2000) 50]
    (ofZ 10000)) = PInf.
Proof.
  apply (proj2 (averageR_edge_cases
    [closedTrade "a" 0 (Some 1000) 100; closedTrade "b" 0 (Some 2000) 50]
    (ofZ 10000))).
  - simpl. discriminate.
  - intros t Ht _.
    repeat (apply elem_of_cons in Ht as [->|Ht]; [done|]).
    by apply elem_of_nil in Ht.
Defined.

(** ** C4, amended: the two drawdown computations over any arithmetic *)

Lemma metricsStepG_exact (s : MetricsAcc) (t : Trade) :
  metricsStepG exactArith s t = metricsStep s t.
Proof. reflexivity. Qed.

Lemma calculateMetricsG_exact (trades : list Trade) (B : num) :
  calculateMetricsG exactArith trades B = calculateMetrics trades B.
Proof. reflexivity. Qed.

Lemma generateEquityCurveG_exact (h : Host) (now : Z) (trades : list Trade)
    (B : num) :
  generateEquityCurveG exactArith h now trades B
  = generateEquityCurve h now trades B.
Proof. reflexivity. Qed.

Lemma metricsStepG_equity (a : Arith) (s : MetricsAcc) (t : Trade) :
  currentEquity (metricsStepG a s t) = aadd a (currentEquity s) (netPnL t).
Proof. unfold metricsStepG. by destruct (gtb (netPnL t) zero). Qed.

Lemma metricsStepG_peak (a : Arith) (s : MetricsAcc) (t : Trade) :
  maxEquity (metricsStepG a s t)
  = nextPeak (aadd a (currentEquity s) (netPnL t)) (maxEquity s).
Proof. unfold metricsStepG. by destruct (gtb (netPnL t) zero). Qed.

Lemma metricsStepG_maxDDPercent (a : Arith) (s : MetricsAcc) (t : Trade) :
  maxDDPercent (metricsStepG a s t)
  = let cur := aadd a (currentEquity s) (netPnL t) in
    let peak := nextPeak cur (maxEquity s) in
    let ddPercent := amul a (adiv a (asub a peak cur) peak) (ofZ 100) in
    if gtb ddPercent (maxDDPercent s) then ddPercent else maxDDPercent s.
Proof. unfold metricsStepG. by destruct (gtb (netPnL t) zero). Qed.

Lemma curveStepG_drawdowns (a : Arith) (h : Host) (s : CurveAcc) (t : Trade) :
  map drawdown (curve (curveStepG a h s t))
  = map drawdown (curve s)
    ++ [afixed2 a
          (let cur := aadd a (currentBalance s) (netPnL t) in
           let peak := nextPeak cur (maxBalance s) in
           if gtb peak zero
           then amul a (adiv a (asub a peak cur) peak) (ofZ 100)
           else zero)].
Proof. unfold curveStepG. cbn [curve]. by rewrite map_app. Qed.

Lemma ltb_antisym_eq (x y : num) :
  x <> NaN -> y <> NaN -> ltb x y = false -> ltb y x = false -> x = y.
Proof.
  destruct x as [p| | |], y as [q| | |]; try done.
  rewrite !ltb_Fin_false. intros _ _ H1 H2. f_equal. by apply Qcle_antisym.
Qed.

Lemma max_numbers (x y : num) :
  x <> NaN -> y <> NaN -> max x y = if ltb x y then y else x.
Proof. by destruct x, y. Qed.

Section Rounding.
Context (fx : num -> num) (Hlaws : roundingLaws fx).

Lemma rounding_mono (x y : num) :
  x <> NaN -> y <> NaN -> ltb y x = false -> ltb (fx y) (fx x) = false.
Proof.
  intros Hx Hy Hle. destruct Hlaws as (_ & _ & Hmono).
  destruct (ltb x y) eqn:Hlt; [by apply Hmono|].
  rewrite (ltb_antisym_eq x y Hx Hy Hlt Hle). apply ltb_irrefl.
Qed.

(** Rounding commutes with taking the larger of two numbers. *)
Lemma max_rounded (m d : num) :
  m <> NaN -> d <> NaN ->
  max (fx m) (fx d) = fx (if gtb d m then d else m).
Proof.
  intros Hm Hd. destruct Hlaws as (_ & Hnan & Hmono).
  rewrite max_numbers by by apply Hnan. unfold gtb.
  destruct (ltb m d) eqn:Hmd.
  - destruct (ltb (fx m) (fx d)) eqn:Hr; [done|].
    apply ltb_antisym_eq; try by apply Hnan.
    + done.
    + by apply Hmono.
  - by rewrite (rounding_mono d m Hd Hm Hmd).
Qed.

Lemma max_rounded_zero (m : num) :
  m <> NaN -> ltb m zero = false -> max (fx m) zero = fx m.
Proof.
  intros Hm H0. pose proof (proj1 Hlaws) as Hz.
  rewrite <- Hz at 1. rewrite (max_rounded m zero Hm) by done.
  unfold gtb. by rewrite H0.
Qed.
End Rounding.

(** The invariant of the two loops run side by side over the same
    arithmetic: same balance, same peak, and the largest drawdown on the
    curve so far is the rounded running maximum of calculateMetrics. *)
Lemma drawdown_loops_agree (a : Arith) (h : Host) (l : list Trade) :
  roundingLaws (afixed2 a) ->
  forall (s : MetricsAcc) (c : CurveAcc),
    currentBalance c = currentEquity s -> maxBalance c = maxEquity s ->
    maxDDPercent s <> NaN -> ltb (maxDDPercent s) zero = false ->
    Forall regularStep
      (drawdownSteps a (currentEquity s) (maxEquity s) (map netPnL l)) ->
    maxList (map drawdown (curve c)) = afixed2 a (maxDDPercent s) ->
    maxList (map drawdown (curve (fold_left (curveStepG a h) l c)))
    = afixed2 a (maxDDPercent (fold_left (metricsStepG a) l s)).
Proof.
  intros Hlaws. induction l as [|t l IH]; intros s c Hc Hp Hnan Hpos Hreg Hmax;
    [done|].
  cbn [map drawdownSteps] in Hreg. apply Forall_cons in Hreg as [Hstep Hreg].
  fold (nextPeak (aadd a (currentEquity s) (netPnL t)) (maxEquity s))
    in Hstep, Hreg.
  set (cur := aadd a (currentEquity s) (netPnL t)) in *.
  set (peak := nextPeak cur (maxEquity s)) in *.
  set (ddp := amul a (adiv a (asub a peak cur) peak) (ofZ 100)) in *.
  assert (HM : maxDDPercent (metricsStepG a s t)
               = if gtb ddp (maxDDPercent s) then ddp else maxDDPercent s)
    by apply metricsStepG_maxDDPercent.
  assert (Hdraw : map drawdown (curve (curveStepG a h c t))
                  = map drawdown (curve c)
                    ++ [afixed2 a (if gtb peak zero then ddp else zero)]).
  { rewrite curveStepG_drawdowns, Hc, Hp. done. }
  unfold regularStep in Hstep. cbn [fst snd] in Hstep.
  cbn [fold_left]. apply IH.
  - unfold curveStepG. cbn [currentBalance]. by rewrite metricsStepG_equity, Hc.
  - unfold curveStepG. cbn [maxBalance].
    by rewrite metricsStepG_peak, Hc, Hp.
  - rewrite HM. destruct (gtb peak zero); [by destruct (gtb ddp _)|].
    by destruct (gtb ddp (maxDDPercent s)) eqn:Hg;
      [unfold gtb in *; rewrite (ltb_between ddp zero (maxDDPercent s)) in Hg|].
  - rewrite HM. destruct (gtb ddp (maxDDPercent s)) eqn:Hg; [|done].
    unfold gtb in Hg. by apply (ltb_above (maxDDPercent s)).
  - by rewrite metricsStepG_equity, metricsStepG_peak.
  - rewrite Hdraw, maxList_snoc, Hmax, HM.
    destruct (gtb peak zero).
    + by apply max_rounded.
    + rewrite (proj1 Hlaws), (max_rounded_zero _ Hlaws) by done.
      unfold gtb in *.
      by rewrite (ltb_between ddp zero (maxDDPercent s)).
Qed.

(** C4, amended.  Whatever the rounding of the arithmetic, exact or
    binary64, provided [Number(x.toFixed(2))] keeps 0, numbers and their
    order: if at every CLOSED trade the running peak is positive and the
    drawdown percentage there is not [NaN] -- or the peak is not positive
    and the unguarded percentage of calculateMetrics is not positive --
    then the largest [drawdown] on the equity curve (the Start point
    contributing 0) is [maxDrawdownPercent] of calculateMetrics rounded to
    two decimals. *)
Theorem curve_max_drawdown_rounded_any_arithmetic (a : Arith) (h : Host)
    (now : Z) (trades : list Trade) (B : num) :
  roundingLaws (afixed2 a) ->
  Forall regularStep (drawdownTrace a trades B) ->
  maxList (map drawdown (generateEquityCurveG a h now trades B))
  = afixed2 a (maxDrawdownPercent (calculateMetricsG a trades B)).
Proof.
  intros Hlaws Hreg.
  unfold generateEquityCurveG, curveOfG, calculateMetricsG, metricsOfG.
  cbn [maxDrawdownPercent metricsFinishG].
  apply (drawdown_loops_agree a h _ Hlaws); try done.
  cbn [curve map drawdown metricsInit maxDDPercent].
  by rewrite (proj1 Hlaws).
Qed.

(** The exact [Number(x.toFixed(2))] obeys the laws. *)
Lemma toFixed2_roundingLaws : roundingLaws toFixed2.
Proof.
  split; [apply toFixed2_zero|]. split.
  - by intros [q| | |].
  - intros [p| | |] [q| | |]; try done. unfold toFixed2.
    rewrite ltb_Fin, ltb_Fin_false. intros H.
    by apply round2_mono, Qclt_le_weak.
Qed.

(** The example of the specification in exact arithmetic: 18.18 is 200/11
    rounded. *)
Lemma curve_max_drawdown_rounded_any_arithmetic_witness :
  maxList (map drawdown
     (generateEquityCurve sampleHost 0 threeTrades (ofZ 10000)))
  = toFixed2 (maxDrawdownPercent
       (calculateMetrics threeTrades (ofZ 10000))).
Proof.
  apply (curve_max_drawdown_rounded_any_arithmetic exactArith sampleHost 0
           threeTrades (ofZ 10000) toFixed2_roundingLaws).
  vm_compute. repeat constructor; discriminate.
Defined.

(** With an arithmetic that overflows, a balance of 2^1023 and one trade
    of 2^1023: the balance becomes [Infinity], the drawdown percentage
    [NaN], the step is not regular, and the two functions disagree --
    [NaN] on the curve, 0 in the metrics. *)
Example overflowing_run_is_not_regular :
  map drawdown
    (generateEquityCurveG overflowingArith sampleHost 0
       [closedTrade "a" 0 (Some 1000) (2 ^ 1023)] (ofZ (2 ^ 1023)))
  = [zero; NaN]
  /\ maxDrawdownPercent
       (calculateMetricsG overflowingArith
          [closedTrade "a" 0 (Some 1000) (2 ^ 1023)] (ofZ (2 ^ 1023)))
     = zero
  /\ ~ Forall regularStep
         (drawdownTrace overflowingArith
            [closedTrade "a" 0 (Some 1000) (2 ^ 1023)] (ofZ (2 ^ 1023))).
Proof.
  split; [by vm_compute|]. split; [by vm_compute|].
  intros H. apply Forall_cons in H as [H _]. vm_compute in H. by apply H.
Qed.
